(** * McCabe-Thiele diagram script: a shallow embedding of [main.py]

    The script works on Python floats (IEEE binary64, through [float] and
    [numpy.float64]).  Its functions are embedded once, over an interface
    [Num] of the arithmetic and comparison operators the script uses, and
    the interface has two instances:

    - [float_Num]: Rocq's primitive binary64 floats, whose operations are
      the ones the script runs on;
    - [Q_Num]: exact rationals, the idealised reading of the same text,
      kept beside binary64 where a run is evaluated on both.

    What depends on control flow only is proved on every instance; what
    depends on the order of the numbers, on every instance whose
    comparisons form an order ([NumOrder], which both instances are); what
    depends on the arithmetic itself, on binary64, from the library's
    specification of its operations ([FloatAxioms], [SpecFloat]). *)

From Stdlib Require Import ZArith QArith Qabs List Bool Lia Lqa.
From Stdlib Require Import Floats.
Import ListNotations.

Set Implicit Arguments.
Set Warnings "-inexact-float,-notation-for-abbreviation".

(** ** Numbers *)

Class Num (A : Type) : Type := {
  lit : Q -> A;            (* a decimal or integer literal of the source *)
  add : A -> A -> A;
  sub : A -> A -> A;
  mul : A -> A -> A;
  div : A -> A -> A;
  opp : A -> A;
  absv : A -> A;           (* abs(...) *)
  ltb : A -> A -> bool;    (* a < b *)
  eqb : A -> A -> bool     (* a == b *)
}.

Declare Scope num_scope.
Delimit Scope num_scope with num.
Infix "+" := add : num_scope.
Infix "-" := sub : num_scope.
Infix "*" := mul : num_scope.
Infix "/" := div : num_scope.
Notation "- x" := (opp x) : num_scope.
Infix "<?" := ltb (at level 70, no associativity) : num_scope.
Notation "x >? y" := (ltb y x) (at level 70, no associativity) : num_scope.
Infix "=?" := eqb (at level 70, no associativity) : num_scope.

(** Exact rationals.  [Qdiv] by zero is zero where numpy gives [inf] or
    [nan]; in the theorems on [Q] that go through a quotient the
    denominator is not zero. *)
Definition Qltb (a b : Q) : bool := negb (Qle_bool b a).

#[export] Instance Q_Num : Num Q := {|
  lit := fun c => c;
  add := Qplus; sub := Qminus; mul := Qmult; div := Qdiv;
  opp := Qopp; absv := Qabs;
  ltb := Qltb; eqb := Qeq_bool
|}.

(** Binary64.  A literal [m / 10^k] is the quotient of two integers that
    binary64 holds exactly, rounded once: the double nearest to the
    decimal, which is what Python's parser produces. *)
Definition Z2F (z : Z) : float :=
  if (z <? 0)%Z then PrimFloat.opp (PrimFloat.of_uint63 (Uint63.of_Z (- z)))
  else PrimFloat.of_uint63 (Uint63.of_Z z).

Definition Q2F (c : Q) : float :=
  PrimFloat.div (Z2F (Qnum c)) (Z2F (Zpos (Qden c))).

#[export] Instance float_Num : Num float := {|
  lit := Q2F;
  add := PrimFloat.add; sub := PrimFloat.sub;
  mul := PrimFloat.mul; div := PrimFloat.div;
  opp := PrimFloat.opp; absv := PrimFloat.abs;
  ltb := PrimFloat.ltb; eqb := PrimFloat.eqb
|}.

(** [numpy.sqrt], for the column diameter only. *)
Class Sqrt (A : Type) : Type := sqrt : A -> A.
#[export] Instance float_Sqrt : Sqrt float := PrimFloat.sqrt.

(** ** Errors of the interpreter *)

Inductive exn : Type :=
| IndexError          (* a list index out of range *)
| TypeError           (* unpacking None at line 58 *)
| ValueError          (* line 33: x not strictly increasing *)
| FitpackError        (* line 33: fewer than four points *)
| ZeroDivisionError.  (* line 147: float division by zero *)

(** The outcome of a piece of the script.  [Fuel] is not an outcome of
    the script: it marks a loop of the model that was given too few
    iterations, and the [*_fuel] lemmas show it is never reached. *)
Inductive res (T : Type) : Type :=
| Ok (v : T)
| Err (e : exn)
| Fuel.
Arguments Ok {T} v.
Arguments Err {T} e.
Arguments Fuel {T}.

Definition bind {T U : Type} (m : res T) (k : T -> res U) : res U :=
  match m with
  | Ok v => k v
  | Err e => Err e
  | Fuel => Fuel
  end.

Notation "x <- m ;; k" := (bind m (fun x => k))
  (at level 61, m at next level, right associativity).
Notation "' p <- m ;; k" := (bind m (fun x => let p := x in k))
  (at level 61, p pattern, m at next level, right associativity).

(** [l[i]] for an index that is not negative. *)
Definition index {T : Type} (l : list T) (i : nat) : res T :=
  match nth_error l i with
  | Some v => Ok v
  | None => Err IndexError
  end.

(** [l[i]] for a Python integer: a negative index counts from the end. *)
Definition zindex {T : Type} (l : list T) (i : Z) : res T :=
  if (0 <=? i)%Z then index l (Z.to_nat i)
  else if (0 <=? Z.of_nat (length l) + i)%Z
       then index l (Z.to_nat (Z.of_nat (length l) + i))
       else Err IndexError.

Section Script.

Context {A : Type} {NA : Num A}.
Local Open Scope num_scope.

(** ** Configuration: the constants of lines 7-28 *)

Record config : Type := {
  xF : A;
  xD : A;
  xW : A;
  R_multiplier : A;
  q : A;
  vapor_velocity : A;
  equilibrium_data : list (A * A)
}.

Definition x_eq (c : config) : list A := map fst (equilibrium_data c).
Definition y_eq (c : config) : list A := map snd (equilibrium_data c).

Definition default_config : config := {|
  xF := lit 0.4;
  xD := lit 0.98;
  xW := lit 0.02;
  R_multiplier := lit 1.5;
  q := lit 1.0;
  vapor_velocity := lit 0.8;
  equilibrium_data :=
    [ (lit 0.1, lit 0.22);
      (lit 0.2, lit 0.39);
      (lit 0.3, lit 0.52);
      (lit 0.4, lit 0.63);
      (lit 0.5, lit 0.72);
      (lit 0.6, lit 0.80);
      (lit 0.7, lit 0.86);
      (lit 0.8, lit 0.92);
      (lit 0.9, lit 0.96) ]
|}.

(** ** The spline of line 33

    Modelled from scipy's documentation and source: with the arguments of
    line 33, [InterpolatedUnivariateSpline(x, y, k=3)] raises ValueError
    unless [diff(x) > 0.0] holds throughout and [x] and [y] have the same
    length, and the FITPACK routine it then calls refuses fewer than
    [k + 1 = 4] points.  Only whether the call raises is modelled: the
    fitted curve is drawn (lines 35 and 152) and nothing the script
    computes afterwards reads it. *)
Fixpoint diff (l : list A) : list A :=
  match l with
  | a :: (b :: _) as l' => (b - a) :: diff l'
  | _ => []
  end.

Definition spline_fit (xs ys : list A) : res unit :=
  if negb (forallb (fun dx => dx >? lit 0) (diff xs)) then Err ValueError
  else if negb (length xs =? length ys)%nat then Err ValueError
  else if (length xs <=? 3)%nat then Err FitpackError
  else Ok tt.

(** ** Minimum reflux (lines 53-62) *)

(** [for i in range(len(x_eq))], with [n] indices left from [i] on; falling
    off the loop returns None. *)
Fixpoint find_intersection_from (n i : nat) (xs ys : list A) (xf : A)
  : res (option (A * A)) :=
  match n with
  | O => Ok None
  | S n' =>
      yi <- index ys i ;;
      if yi >? xf
      then xi <- index xs i ;; Ok (Some (xi, yi))
      else find_intersection_from n' (S i) xs ys xf
  end.

Definition find_intersection (xs ys : list A) (xf xd : A)
  : res (option (A * A)) :=
  find_intersection_from (length xs) 0 xs ys xf.

(** [xiE, yiE = find_intersection(...)]: unpacking None raises. *)
Definition unpack (r : option (A * A)) : res (A * A) :=
  match r with
  | Some p => Ok p
  | None => Err TypeError
  end.

Definition R_min_of (xd xiE yiE : A) : A := (xd - yiE) / (yiE - xiE).

Definition operating_reflux (c : config) (rmin : A) : A :=
  R_multiplier c * rmin.

(** ** Feed line (lines 38-48) *)

(** Modelled from numpy's documentation: [numpy.linspace(start, stop, num)]
    is [num] evenly spaced samples over [[start, stop]], both ends
    included; sample [i] is [i * step + start] with
    [step = (stop - start) / (num - 1)], and the last one is [stop]. *)
Definition linspace (start stop : A) (num : nat) : list A :=
  let step := (stop - start) / lit (inject_Z (Z.of_nat num - 1)) in
  map (fun i => if (1 <? num)%nat && (S i =? num)%nat then stop
                else lit (inject_Z (Z.of_nat i)) * step + start)
      (seq 0 num).

Definition feed_line (xf qv : A) : list A * list A :=
  if qv =? lit 1 then
    ([xf; xf], [lit 0; lit 1])
  else
    let slope := qv / (qv - lit 1) in
    let intercept := (- xf) / (qv - lit 1) in
    let x_feed := linspace (lit 0) (lit 1) 100 in
    let y_feed := map (fun x => slope * x + intercept) x_feed in
    (x_feed, y_feed).

(** ** Operating lines (lines 65-84) *)

Definition rectifying_line (xd r : A) : list A * list A :=
  let slope := r / (r + lit 1) in
  let intercept := xd / (r + lit 1) in
  let x_rect := linspace (lit 0) xd 100 in
  (x_rect, map (fun x => slope * x + intercept) x_rect).

Definition stripping_line (xw xif yif : A) : list A * list A :=
  let slope := (yif - xw) / (xif - xw) in
  let intercept := xw - slope * xw in
  let x_strip := linspace xw xif 100 in
  (x_strip, map (fun x => slope * x + intercept) x_strip).

Definition xiF_of (c : config) (r : A) : A :=
  if negb (q c =? lit 1)
  then (xF c / (q c - lit 1) + xD c / (r + lit 1))
       / (q c / (q c - lit 1) - r / (r + lit 1))
  else xF c.

Definition yiF_of (c : config) (r xif : A) : A :=
  r / (r + lit 1) * xif + xD c / (r + lit 1).

(** ** Inverting the equilibrium table (lines 87-110) *)

(** How the [while low <= high] loop is left. *)
Inductive search_exit : Type :=
| Returned (x : A)        (* [return x_eq[mid]] from inside the loop *)
| Exited (low high : Z).  (* the loop condition failed *)

Fixpoint search_loop (fuel : nat) (y_target : A) (xs ys : list A)
  (low high : Z) : res search_exit :=
  if (low <=? high)%Z then
    match fuel with
    | O => Fuel
    | S fuel' =>
        let mid := ((low + high) / 2)%Z in
        ym <- zindex ys mid ;;
        if ym <? y_target then
          search_loop fuel' y_target xs ys (mid + 1)%Z high
        else
          ym' <- zindex ys mid ;;
          if ym' >? y_target then
            search_loop fuel' y_target xs ys low (mid - 1)%Z
          else
            x <- zindex xs mid ;; Ok (Returned x)
    end
  else Ok (Exited low high).

Definition interpolate (y_target x1 y1 x2 y2 : A) : A :=
  x1 + (y_target - y1) * (x2 - x1) / (y2 - y1).

Definition binary_search_interpolate (y_target : A) (xs ys : list A) : res A :=
  let low := 0%Z in
  let high := (Z.of_nat (length ys) - 1)%Z in
  e <- search_loop (length ys) y_target xs ys low high ;;
  match e with
  | Returned x => Ok x
  | Exited low _ =>
      if (low =? 0)%Z then zindex xs 0
      else if (low >=? Z.of_nat (length ys))%Z then zindex xs (-1)
      else
        x1 <- zindex xs (low - 1) ;;
        y1 <- zindex ys (low - 1) ;;
        x2 <- zindex xs low ;;
        y2 <- zindex ys low ;;
        Ok (interpolate y_target x1 y1 x2 y2)
  end.

(** ** Stepping off the stages (lines 112-143) *)

Definition tolerance : A := lit 1e-4.
Definition max_iterations : Z := 1000.

(** What the loop reads and does not change. *)
Record lines : Type := {
  cfg : config;
  R : A;
  xiF : A;
  yiF : A
}.

(** What the loop changes. *)
Record loop_state : Type := {
  stages : list (A * A);
  current_x : A;
  iteration_count : Z
}.

Definition loop_cond (l : lines) (st : loop_state) : bool :=
  (current_x st >? xW (cfg l) + tolerance)
  && (iteration_count st <? max_iterations)%Z.

Definition rectifying_y (l : lines) (x : A) : A :=
  R l / (R l + lit 1) * x + xD (cfg l) / (R l + lit 1).

Definition stripping_y (l : lines) (x : A) : A :=
  (yiF l - xW (cfg l)) / (xiF l - xW (cfg l)) * (x - xW (cfg l)) + xW (cfg l).

Definition operating_y (l : lines) (x : A) : A :=
  if x >? xiF l then rectifying_y l x else stripping_y l x.

(** One pass through the loop body; the boolean tells whether it left
    through [break]. *)
Definition stage_body (l : lines) (st : loop_state) : res (loop_state * bool) :=
  let count := (iteration_count st + 1)%Z in
  let current_y := operating_y l (current_x st) in
  let stages1 := stages st ++ [(current_x st, current_y)] in
  next_x <- binary_search_interpolate current_y (x_eq (cfg l)) (y_eq (cfg l)) ;;
  let stages2 := stages1 ++ [(next_x, current_y)] in
  if absv (current_x st - next_x) <? tolerance then
    Ok ({| stages := stages2; current_x := current_x st;
           iteration_count := count |}, true)
  else
    Ok ({| stages := stages2; current_x := next_x;
           iteration_count := count |}, false).

Fixpoint stage_loop (fuel : nat) (l : lines) (st : loop_state) : res loop_state :=
  if loop_cond l st then
    match fuel with
    | O => Fuel
    | S fuel' =>
        '(st', broke) <- stage_body l st ;;
        if (broke : bool) then Ok st' else stage_loop fuel' l st'
    end
  else Ok st.

(** ** The script as a whole

    The variables the script assigns at module level.  A run starts from
    whatever an earlier run left in them. *)
Record globals : Type := {
  g_xiE : A;
  g_yiE : A;
  g_R_min : A;
  g_R : A;
  g_xiF : A;
  g_yiF : A;
  g_loop : loop_state;        (* stages, current_x, iteration_count *)
  g_column_diameter : A
}.

Definition lines_of (c : config) (g : globals) : lines :=
  {| cfg := c; R := g_R g; xiF := g_xiF g; yiF := g_yiF g |}.

(** Lines 58-62 and 82-83. *)
Definition assign_lines (c : config) (g : globals) : res globals :=
  r <- find_intersection (x_eq c) (y_eq c) (xF c) (xD c) ;;
  '(xiE, yiE) <- unpack r ;;
  let rmin := R_min_of (xD c) xiE yiE in
  let r := operating_reflux c rmin in
  let xif := xiF_of c r in
  let yif := yiF_of c r xif in
  Ok {| g_xiE := xiE; g_yiE := yiE; g_R_min := rmin; g_R := r;
        g_xiF := xif; g_yiF := yif;
        g_loop := g_loop g; g_column_diameter := g_column_diameter g |}.

(** Lines 112-116. *)
Definition init_loop (c : config) (g : globals) : globals :=
  {| g_xiE := g_xiE g; g_yiE := g_yiE g; g_R_min := g_R_min g; g_R := g_R g;
     g_xiF := g_xiF g; g_yiF := g_yiF g;
     g_loop := {| stages := []; current_x := xD c; iteration_count := 0 |};
     g_column_diameter := g_column_diameter g |}.

(** Lines 118-139. *)
Definition run_loop (c : config) (g : globals) : res globals :=
  st <- stage_loop (Z.to_nat max_iterations) (lines_of c g) (g_loop g) ;;
  Ok {| g_xiE := g_xiE g; g_yiE := g_yiE g; g_R_min := g_R_min g; g_R := g_R g;
        g_xiF := g_xiF g; g_yiF := g_yiF g;
        g_loop := st;
        g_column_diameter := g_column_diameter g |}.

(** Lines 58-139: everything but the sizing and the output. *)
Definition stage_design (c : config) (g : globals) : res globals :=
  g1 <- assign_lines c g ;;
  run_loop c (init_loop c g1).

(** Lines 142-143: whether the warning is printed. *)
Definition warning (g : globals) : bool :=
  (iteration_count (g_loop g) >=? max_iterations)%Z.

(** Lines 179 and 180. *)
Definition number_of_stages (g : globals) : Z :=
  (Z.of_nat (length (stages (g_loop g))) / 2)%Z.

Definition feed_stage (g : globals) : nat :=
  length (filter (fun s => fst s >? g_xiF g) (stages (g_loop g))).

(** Lines 146-147. *)
Context {SA : Sqrt A}.

Definition np_pi : A := lit 3.141592653589793.

(** [np.pi] and [vapor_velocity] are Python floats, and so are the two
    sides of the division: a divisor equal to zero raises
    ZeroDivisionError.  (The other divisions of the script have a numpy
    scalar on one side and return inf or nan instead.) *)
Definition column_diameter_of (c : config) : res A :=
  let volumetric_flow_rate := lit 100 / lit 3600 in
  let divisor := np_pi * vapor_velocity c in
  if divisor =? lit 0 then Err ZeroDivisionError
  else Ok (sqrt (lit 4 * volumetric_flow_rate / divisor)).

Definition sizing (c : config) (g : globals) : res globals :=
  d <- column_diameter_of c ;;
  Ok {| g_xiE := g_xiE g; g_yiE := g_yiE g; g_R_min := g_R_min g; g_R := g_R g;
        g_xiF := g_xiF g; g_yiF := g_yiF g;
        g_loop := g_loop g;
        g_column_diameter := d |}.

(** What the script prints (lines 143 and 177-181), as values. *)
Record report : Type := {
  rep_warning : bool;
  rep_R_min : A;
  rep_R : A;
  rep_stages : Z;
  rep_feed_stage : nat;
  rep_diameter : A
}.

Definition summary (g : globals) : report :=
  {| rep_warning := warning g;
     rep_R_min := g_R_min g;
     rep_R := g_R g;
     rep_stages := number_of_stages g;
     rep_feed_stage := feed_stage g;
     rep_diameter := g_column_diameter g |}.

(** The script from line 33 to line 181: the spline fit, the stage
    design, the sizing, and what is printed at the end.  An exception at
    any of them ends the run before the summary.  The drawing of lines
    150-174 is left out. *)
Definition script (c : config) (g : globals) : res (globals * report) :=
  fitted <- spline_fit (x_eq c) (y_eq c) ;;
  g1 <- stage_design c g ;;
  g2 <- sizing c g1 ;;
  Ok (g2, summary g2).

(** ** The staircase handed to the plot (lines 161-165) *)

(** [len(range(start, stop, step))] for a positive step. *)
Definition range_length (start stop step : Z) : nat :=
  if (start <? stop)%Z then Z.to_nat ((stop - start + step - 1) / step) else O.

(** [for i in range(0, len(stages) - 1, 2)], with [n] indices left from
    [i] on; each pass hands [plt.plot] the two x and the two y of
    [stages[i]] and [stages[i + 1]]. *)
Fixpoint stage_segments_from (n i : nat) (s : list (A * A))
  : res (list (list A * list A)) :=
  match n with
  | O => Ok []
  | S n' =>
      p <- index s i ;;
      p' <- index s (i + 1) ;;
      rest <- stage_segments_from n' (i + 2) s ;;
      Ok (([fst p; fst p'], [snd p; snd p']) :: rest)
  end.

Definition stage_segments (s : list (A * A)) : res (list (list A * list A)) :=
  stage_segments_from (range_length 0 (Z.of_nat (length s) - 1) 2) 0 s.

End Script.

Arguments config A : clear implicits.
Arguments globals A : clear implicits.
Arguments report A : clear implicits.
Arguments lines A : clear implicits.
Arguments loop_state A : clear implicits.
Arguments search_exit A : clear implicits.

(** ** Vocabulary of the statements *)

Section Vocabulary.

Context {A : Type} {NA : Num A}.
Local Open Scope num_scope.

(** The recorded points, two by two: the operating-line point of an
    iteration and the equilibrium point that follows it. *)
Fixpoint steps (s : list (A * A)) : list ((A * A) * (A * A)) :=
  match s with
  | p1 :: p2 :: s' => (p1, p2) :: steps s'
  | _ => []
  end.

(** [c - tol <= x <= c + tol]. *)
Definition near (x c tol : A) : bool :=
  negb (x <? c - tol) && negb (c + tol <? x).

(** Each element is below the next one. *)
Fixpoint ascending (l : list A) : bool :=
  match l with
  | a :: (b :: _) as l' => (a <? b) && ascending l'
  | _ => true
  end.

(** [leb] holds from each element to the one before it. *)
Fixpoint non_increasing {T : Type} (leb : T -> T -> bool) (l : list T) : bool :=
  match l with
  | a :: (b :: _) as l' => leb b a && non_increasing leb l'
  | _ => true
  end.

(** The default configuration with a feed richer than every tabulated y. *)
Definition config_feed_above_table : config A := {|
  xF := lit 0.97;
  xD := xD default_config;
  xW := xW default_config;
  R_multiplier := R_multiplier default_config;
  q := q default_config;
  vapor_velocity := vapor_velocity default_config;
  equilibrium_data := equilibrium_data default_config
|}.

(** The default configuration on a two-row table whose x column descends. *)
Definition config_descending_table : config A := {|
  xF := xF default_config;
  xD := xD default_config;
  xW := xW default_config;
  R_multiplier := R_multiplier default_config;
  q := q default_config;
  vapor_velocity := vapor_velocity default_config;
  equilibrium_data := [ (lit 0.9, lit 0.2); (lit 0.1, lit 0.8) ]
|}.

(** A lean feed and distillate on a table that is nearly flat in y: the
    rectifying line falls (R is between -1 and 0), and the stepper
    alternates between the two ends of the table. *)
Definition config_oscillating : config A := {|
  xF := lit 0.05;
  xD := lit 0.25;
  xW := xW default_config;
  R_multiplier := R_multiplier default_config;
  q := q default_config;
  vapor_velocity := vapor_velocity default_config;
  equilibrium_data :=
    [ (lit 0.1, lit 0.30); (lit 0.2, lit 0.31);
      (lit 0.3, lit 0.32); (lit 0.9, lit 0.33) ]
|}.

(** The default configuration with no vapor velocity. *)
Definition config_still_vapor : config A := {|
  xF := xF default_config;
  xD := xD default_config;
  xW := xW default_config;
  R_multiplier := R_multiplier default_config;
  q := q default_config;
  vapor_velocity := lit 0;
  equilibrium_data := equilibrium_data default_config
|}.

(** The default configuration with the distillate at the bottoms
    composition. *)
Definition config_distillate_at_bottoms : config A := {|
  xF := xF default_config;
  xD := lit 0.02;
  xW := xW default_config;
  R_multiplier := R_multiplier default_config;
  q := q default_config;
  vapor_velocity := vapor_velocity default_config;
  equilibrium_data := equilibrium_data default_config
|}.

(** The variables of a session that has not run the script yet. *)
Definition blank_globals : globals A :=
  {| g_xiE := lit 0; g_yiE := lit 0; g_R_min := lit 0; g_R := lit 0;
     g_xiF := lit 0; g_yiF := lit 0;
     g_loop := {| stages := []; current_x := lit 0; iteration_count := 0 |};
     g_column_diameter := lit 0 |}.

(** An iteration as the stage list records it: the point on the operating
    line, then the equilibrium point on the same horizontal. *)
Definition step_ok (l : lines A) (s : (A * A) * (A * A)) : Prop :=
  snd (fst s) = operating_y l (fst (fst s))
  /\ snd (snd s) = snd (fst s)
  /\ binary_search_interpolate (snd (fst s)) (x_eq (cfg l)) (y_eq (cfg l))
     = Ok (fst (snd s)).

(** Each iteration starts where the one before it arrived. *)
Fixpoint chained (x : A) (ss : list ((A * A) * (A * A))) : Prop :=
  match ss with
  | [] => True
  | s :: ss' => fst (fst s) = x /\ chained (fst (snd s)) ss'
  end.

Definition unsteps (ss : list ((A * A) * (A * A))) : list (A * A) :=
  flat_map (fun s => [fst s; snd s]) ss.

End Vocabulary.

(** ** Vocabulary of binary64 rounding

    The library specifies the arithmetic of binary64 by functions on
    [spec_float]: a result is computed as an exact integer mantissa and an
    exponent, shifted to the precision with a round and a sticky bit and
    rounded to nearest even ([binary_round_aux]).  The definitions below
    name the steps of that function; the script does not contain them. *)

Section Rounding_vocabulary.

Variables prec emax : Z.
Local Open Scope Z_scope.

(** A shifted mantissa with its round and sticky bits, as one number. *)
Definition shr_code (r : shr_record) : Z :=
  4 * shr_m r + 2 * Z.b2z (shr_r r) + Z.b2z (shr_s r).

(** The mantissa a shifted record rounds to. *)
Definition rnd (r : shr_record) : Z :=
  round_nearest_even (shr_m r) (loc_of_shr_record r).

(** The float of a mantissa and an exponent, infinite past the largest
    exponent. *)
Definition mk_float (s : bool) (M E : Z) : spec_float :=
  match M with
  | Z0 => S754_zero s
  | Zpos p => if E <=? emax - prec then S754_finite s p E else S754_infinity s
  | Zneg _ => S754_nan
  end.

(** The second half of [binary_round_aux]: the rounded mantissa is
    shifted once more if rounding carried. *)
Definition finish_float (s : bool) (M E : Z) : spec_float :=
  let '(r, e') := shr_fexp prec emax M E loc_Exact in mk_float s (shr_m r) e'.

(** By how many bits [binary_round_aux] shifts a mantissa at an exponent. *)
Definition shift_of (m e : Z) : Z := SpecFloat.fexp prec emax (Zdigits2 m + e) - e.

(** The quotient of two integers with the location of the remainder. *)
Definition qloc (X D : Z) : Z * location := (X / D, new_location D (X mod D)).

Definition loc_code (l : location) : Z :=
  match l with
  | loc_Exact => 0
  | loc_Inexact Lt => 1
  | loc_Inexact Eq => 2
  | loc_Inexact Gt => 3
  end.

(** The exponent [SFdiv_core_binary] computes a quotient at. *)
Definition div_scale_of (m1 e1 m2 e2 : Z) : Z :=
  Z.min (SpecFloat.fexp prec emax (Zdigits2 m1 + e1 - (Zdigits2 m2 + e2))) (e1 - e2).

(** Zero or a positive finite number. *)
Definition nonneg_fin (x : spec_float) : bool :=
  match x with
  | S754_zero _ | S754_finite false _ _ => true
  | _ => false
  end.

End Rounding_vocabulary.

(** ** Vocabulary of the statements on binary64 *)

Section Binary64_vocabulary.

Local Open Scope float_scope.

(** Zero or a positive finite number. *)
Definition nnf (x : float) : bool := nonneg_fin (Prim2SF x).

(** A positive finite number. *)
Definition posf (x : float) : bool :=
  match Prim2SF x with
  | S754_finite false _ _ => true
  | _ => false
  end.

(** What line 110 computes between the rows (x1, y1) and (x2, y2) stays
    finite: the rows are positive and finite, x and y rise from the first
    to the second, and the product and the quotient taken at the upper
    end, [y_target = y2], do not overflow. *)
Definition chain_ok (x1 y1 x2 y2 : float) : bool :=
  posf x1 && posf y1 && posf y2 && posf (x2 - x1) && posf (y2 - y1)
  && nnf ((y2 - y1) * (x2 - x1))
  && nnf ((y2 - y1) * (x2 - x1) / (y2 - y1)).

(** [lo <= x <= hi]. *)
Definition within (lo hi x : float) : bool := (lo <=? x) && (x <=? hi).

(** Two neighbouring rows between which the interpolation starts at or
    above [lo] and, at the upper end, ends at or below [hi]. *)
Definition row_ok (lo hi : float) (p1 p2 : float * float) : bool :=
  chain_ok (fst p1) (snd p1) (fst p2) (snd p2)
  && (lo <=? fst p1)
  && (interpolate (snd p2) (fst p1) (snd p1) (fst p2) (snd p2) <=? hi).

Fixpoint rows_ok (lo hi : float) (tab : list (float * float)) : bool :=
  match tab with
  | p1 :: (p2 :: _) as t => row_ok lo hi p1 p2 && rows_ok lo hi t
  | _ => true
  end.

(** A check of a table that evaluates: the y column ascends, every
    tabulated x lies between the first and the last one, no y is NaN, and
    every pair of neighbouring rows is [row_ok] for the first and the
    last x. *)
Definition table_checked (tab : list (float * float)) : bool :=
  let lo := nth 0 (map fst tab) (lit 0) in
  let hi := nth (length tab - 1) (map fst tab) (lit 0) in
  ascending (map snd tab)
  && forallb (fun p => within lo hi (fst p) && (snd p =? snd p)) tab
  && rows_ok lo hi tab.

(** The table of two rows on which rounding takes the interpolation past
    the last x. *)
Definition table_rounding_up : list (float * float) :=
  [ (lit 0.12, lit 0.18); (lit 0.3, lit 0.93) ].

End Binary64_vocabulary.

(** ** The order behind the comparisons

    What the binary search needs of [<] and [==]: a strict order that
    [==] respects, total on the values that are equal to themselves (on
    binary64, all but NaN). *)
Class NumOrder (A : Type) {NA : Num A} : Prop := {
  ltb_trans : forall a b c : A,
    ltb a b = true -> ltb b c = true -> ltb a c = true;
  ltb_asym : forall a b : A, ltb a b = true -> ltb b a = false;
  eqb_ltb_l : forall a b c : A, eqb a b = true -> ltb a c = ltb b c;
  eqb_ltb_r : forall a b c : A, eqb a b = true -> ltb c a = ltb c b;
  ltb_total : forall a b : A,
    eqb a a = true -> eqb b b = true ->
    ltb a b = false -> ltb b a = false -> eqb a b = true
}.
Arguments NumOrder A {NA}.

(** ** Facts that hold on every instance of [Num] *)

Section Generic.

Context {A : Type} {NA : Num A}.
Local Open Scope num_scope.

Lemma bind_Ok {T U : Type} (m : res T) (k : T -> res U) (u : U) :
  bind m k = Ok u -> exists v, m = Ok v /\ k v = Ok u.
Proof.
  destruct m as [v | e | ]; simpl; intros H; try discriminate.
  exists v; split; [reflexivity | exact H].
Qed.

Lemma index_nth {T : Type} (l : list T) (i : nat) (d : T) :
  (i < length l)%nat -> index l i = Ok (nth i l d).
Proof.
  intros Hi. unfold index.
  rewrite (nth_error_nth' l d Hi). reflexivity.
Qed.

Lemma zindex_nth {T : Type} (l : list T) (i : Z) (d : T) :
  (0 <= i < Z.of_nat (length l))%Z -> zindex l i = Ok (nth (Z.to_nat i) l d).
Proof.
  intros Hi. unfold zindex.
  destruct (Z.leb_spec 0 i); [ | lia].
  apply index_nth. lia.
Qed.

Lemma zindex_last {T : Type} (l : list T) (d : T) :
  l <> [] -> zindex l (-1) = Ok (nth (length l - 1) l d).
Proof.
  intros Hl. unfold zindex. simpl.
  destruct l as [ | a l']; [congruence | ].
  destruct (Z.leb_spec 0 (Z.of_nat (length (a :: l')) + -1)%Z) as [ _ | H];
    [ | simpl length in H; lia].
  replace (Z.to_nat (Z.of_nat (length (a :: l')) + -1)) with (length (a :: l') - 1)%nat by lia.
  apply index_nth. simpl. lia.
Qed.

Lemma x_eq_y_eq_length (c : config A) : length (x_eq c) = length (y_eq c).
Proof. unfold x_eq, y_eq. rewrite !length_map. reflexivity. Qed.

Lemma y_eq_nonempty (c : config A) : equilibrium_data c <> [] -> y_eq c <> [].
Proof.
  unfold y_eq. destruct (equilibrium_data c); [congruence | discriminate].
Qed.

(** *** The linear scan is [List.find] on the table *)

Lemma find_intersection_from_find (pre rest : list (A * A)) (xf : A) :
  find_intersection_from (length rest) (length pre)
    (map fst (pre ++ rest)) (map snd (pre ++ rest)) xf
  = Ok (find (fun p => snd p >? xf) rest).
Proof.
  revert pre. induction rest as [ | p rest IH]; intros pre; simpl.
  - reflexivity.
  - unfold index.
    assert (Hy : nth_error (map snd (pre ++ p :: rest)) (length pre) = Some (snd p)).
    { rewrite nth_error_map, nth_error_app2, Nat.sub_diag by lia. reflexivity. }
    assert (Hx : nth_error (map fst (pre ++ p :: rest)) (length pre) = Some (fst p)).
    { rewrite nth_error_map, nth_error_app2, Nat.sub_diag by lia. reflexivity. }
    rewrite Hy. simpl.
    destruct (snd p >? xf) eqn:Hgt.
    + rewrite Hx. simpl. destruct p; reflexivity.
    + specialize (IH (pre ++ [p])).
      rewrite <- app_assoc in IH. simpl in IH.
      rewrite length_app in IH. simpl in IH.
      rewrite Nat.add_1_r in IH. exact IH.
Qed.

Lemma find_intersection_find (c : config A) :
  find_intersection (x_eq c) (y_eq c) (xF c) (xD c)
  = Ok (find (fun p => snd p >? xF c) (equilibrium_data c)).
Proof.
  unfold find_intersection, x_eq, y_eq.
  rewrite length_map.
  exact (find_intersection_from_find [] (equilibrium_data c) (xF c)).
Qed.

(** *** Neither loop runs out of fuel *)

Lemma zindex_fuel {T : Type} (l : list T) (i : Z) : zindex l i <> Fuel.
Proof.
  unfold zindex, index.
  repeat match goal with
         | |- context [if ?b then _ else _] => destruct b
         | |- context [nth_error ?a ?b] => destruct (nth_error a b)
         end; discriminate.
Qed.

Lemma search_loop_fuel (fuel : nat) (y : A) (xs ys : list A) (low high : Z) :
  (high - low + 1 <= Z.of_nat fuel)%Z ->
  search_loop fuel y xs ys low high <> Fuel.
Proof.
  revert low high. induction fuel as [ | fuel IH]; intros low high Hf; simpl.
  - destruct (Z.leb_spec low high); [lia | discriminate].
  - destruct (Z.leb_spec low high) as [Hle | Hgt]; [ | discriminate].
    assert (Hmid : (low <= (low + high) / 2 <= high)%Z).
    { split; [apply Z.div_le_lower_bound | apply Z.div_le_upper_bound]; lia. }
    pose proof (@zindex_fuel A ys ((low + high) / 2)) as Hy.
    pose proof (@zindex_fuel A xs ((low + high) / 2)) as Hx.
    destruct (zindex ys ((low + high) / 2)) as [ym | e | ]; simpl;
      [ | discriminate | congruence].
    destruct (ym <? y); [apply IH; lia | ].
    destruct (y <? ym); [apply IH; lia | ].
    destruct (zindex xs ((low + high) / 2)); simpl; [discriminate | discriminate | congruence].
Qed.

Lemma binary_search_interpolate_fuel (y : A) (xs ys : list A) :
  binary_search_interpolate y xs ys <> Fuel.
Proof.
  unfold binary_search_interpolate.
  pose proof (@search_loop_fuel (length ys) y xs ys 0 (Z.of_nat (length ys) - 1)) as Hs.
  destruct (search_loop (length ys) y xs ys 0 (Z.of_nat (length ys) - 1))
    as [[x | low high] | e | ]; simpl; try discriminate.
  - destruct (low =? 0)%Z; [apply zindex_fuel | ].
    destruct (low >=? Z.of_nat (length ys))%Z; [apply zindex_fuel | ].
    pose proof (@zindex_fuel A xs (low - 1)) as H1.
    pose proof (@zindex_fuel A ys (low - 1)) as H2.
    pose proof (@zindex_fuel A xs low) as H3.
    pose proof (@zindex_fuel A ys low) as H4.
    destruct (zindex xs (low - 1)); simpl; try congruence.
    destruct (zindex ys (low - 1)); simpl; try congruence.
    destruct (zindex xs low); simpl; try congruence.
    destruct (zindex ys low); simpl; congruence.
  - exfalso. apply Hs; [lia | reflexivity].
Qed.

(** *** The inversion always returns a value *)

Lemma search_loop_returns (fuel : nat) (y : A) (xs ys : list A) (low high : Z) :
  length xs = length ys ->
  (0 <= low)%Z -> (high < Z.of_nat (length ys))%Z -> (low <= high + 1)%Z ->
  (high - low + 1 <= Z.of_nat fuel)%Z ->
  (exists x, search_loop fuel y xs ys low high = Ok (Returned x))
  \/ (exists low' high',
        search_loop fuel y xs ys low high = Ok (Exited low' high')
        /\ (0 <= low' <= Z.of_nat (length ys))%Z).
Proof.
  intros Hlen. revert low high.
  induction fuel as [ | fuel IH]; intros low high Hlow Hhigh Hlh Hfuel; simpl.
  - destruct (Z.leb_spec low high); [lia | ].
    right. exists low, high. split; [reflexivity | lia].
  - destruct (Z.leb_spec low high) as [Hle | Hgt].
    + assert (Hmid : (low <= (low + high) / 2 <= high)%Z).
      { split; [apply Z.div_le_lower_bound | apply Z.div_le_upper_bound]; lia. }
      set (mid := ((low + high) / 2)%Z) in *.
      destruct (nth_error ys (Z.to_nat mid)) as [ym | ] eqn:Eym;
        [ | apply nth_error_None in Eym; lia].
      destruct (nth_error xs (Z.to_nat mid)) as [xm | ] eqn:Exm;
        [ | apply nth_error_None in Exm; lia].
      assert (Hzy : zindex ys mid = Ok ym).
      { unfold zindex, index. destruct (Z.leb_spec 0 mid); [ | lia].
        rewrite Eym. reflexivity. }
      assert (Hzx : zindex xs mid = Ok xm).
      { unfold zindex, index. destruct (Z.leb_spec 0 mid); [ | lia].
        rewrite Exm. reflexivity. }
      rewrite Hzy. simpl.
      destruct (ym <? y); [apply IH; lia | ].
      destruct (y <? ym); [apply IH; lia | ].
      rewrite Hzx. simpl. left. exists xm. reflexivity.
    + right. exists low, high. split; [reflexivity | lia].
Qed.

Lemma binary_search_interpolate_returns (y : A) (xs ys : list A) :
  length xs = length ys -> ys <> [] ->
  exists x, binary_search_interpolate y xs ys = Ok x.
Proof.
  intros Hlen Hne.
  assert (Hpos : (0 < length ys)%nat) by (destruct ys; [congruence | simpl; lia]).
  assert (Hz : forall l : list A, forall i : Z,
             (0 <= i < Z.of_nat (length l))%Z -> exists v, zindex l i = Ok v).
  { intros l i Hi. unfold zindex, index.
    destruct (Z.leb_spec 0 i); [ | lia].
    destruct (nth_error l (Z.to_nat i)) eqn:E; [eexists; reflexivity | ].
    apply nth_error_None in E. lia. }
  unfold binary_search_interpolate.
  destruct (@search_loop_returns (length ys) y xs ys 0 (Z.of_nat (length ys) - 1) Hlen)
    as [[x Hs] | [low [high [Hs Hlow]]]]; try lia; rewrite Hs; simpl.
  - exists x. reflexivity.
  - destruct (Z.eqb_spec low 0) as [-> | Hne0]; [apply Hz; lia | ].
    destruct (Z.geb_spec low (Z.of_nat (length ys))) as [Hge | Hlt].
    + destruct xs as [ | a xs']; [simpl in Hlen; lia | ].
      rewrite (zindex_last a) by discriminate. eexists; reflexivity.
    + destruct (Hz xs (low - 1)%Z ltac:(lia)) as [x1 H1].
      destruct (Hz ys (low - 1)%Z ltac:(lia)) as [y1 H2].
      destruct (Hz xs low ltac:(lia)) as [x2 H3].
      destruct (Hz ys low ltac:(lia)) as [y2 H4].
      rewrite H1, H2, H3, H4. simpl. eexists; reflexivity.
Qed.

(** *** One pass through the loop body *)

Lemma stage_body_fuel (l : lines A) (st : loop_state A) : stage_body l st <> Fuel.
Proof.
  unfold stage_body.
  pose proof (@binary_search_interpolate_fuel
                (operating_y l (current_x st)) (x_eq (cfg l)) (y_eq (cfg l))) as Hb.
  destruct (binary_search_interpolate _ _ _) as [nx | e | ]; simpl;
    [ | discriminate | congruence].
  destruct (absv (current_x st - nx) <? tolerance); discriminate.
Qed.

Lemma stage_body_inv (l : lines A) (st st' : loop_state A) (broke : bool) :
  stage_body l st = Ok (st', broke) ->
  exists next_x,
    binary_search_interpolate (operating_y l (current_x st))
      (x_eq (cfg l)) (y_eq (cfg l)) = Ok next_x
    /\ stages st' = stages st ++ [(current_x st, operating_y l (current_x st));
                                  (next_x, operating_y l (current_x st))]
    /\ iteration_count st' = (iteration_count st + 1)%Z
    /\ broke = (absv (current_x st - next_x) <? tolerance)
    /\ current_x st' = (if broke then current_x st else next_x).
Proof.
  unfold stage_body. intros H.
  apply bind_Ok in H. destruct H as [nx [Hnx H]].
  exists nx. split; [exact Hnx | ].
  destruct (absv (current_x st - nx) <? tolerance); inversion H; subst; clear H;
    simpl; rewrite <- app_assoc; simpl; repeat split; reflexivity.
Qed.

(** *** The whole loop *)

Lemma steps_unsteps (ss : list ((A * A) * (A * A))) : steps (unsteps ss) = ss.
Proof.
  induction ss as [ | [p1 p2] ss IH]; [reflexivity | ].
  change (unsteps ((p1, p2) :: ss)) with (p1 :: p2 :: unsteps ss).
  simpl. rewrite IH. reflexivity.
Qed.

Lemma length_unsteps (ss : list ((A * A) * (A * A))) :
  length (unsteps ss) = (2 * length ss)%nat.
Proof.
  induction ss as [ | s ss IH]; [reflexivity | ].
  change (unsteps (s :: ss)) with (fst s :: snd s :: unsteps ss).
  simpl. rewrite IH. lia.
Qed.

Lemma stage_loop_fuel (fuel : nat) (l : lines A) (st : loop_state A) :
  (max_iterations - iteration_count st <= Z.of_nat fuel)%Z ->
  stage_loop fuel l st <> Fuel.
Proof.
  revert st. induction fuel as [ | fuel IH]; intros st Hf; simpl.
  - unfold loop_cond.
    destruct (current_x st >? xW (cfg l) + tolerance); simpl; [ | discriminate].
    destruct (Z.ltb_spec (iteration_count st) max_iterations); [lia | discriminate].
  - destruct (loop_cond l st) eqn:Hc; [ | discriminate].
    pose proof (@stage_body_fuel l st) as Hb.
    destruct (stage_body l st) as [[st' broke] | e | ] eqn:Hbody; simpl;
      [ | discriminate | congruence].
    destruct broke; [discriminate | ].
    apply IH.
    apply stage_body_inv in Hbody. destruct Hbody as [nx [_ [_ [Hn _]]]].
    rewrite Hn. lia.
Qed.

Lemma stage_loop_inv (fuel : nat) (l : lines A) (st st' : loop_state A) :
  stage_loop fuel l st = Ok st' ->
  exists ss,
    stages st' = stages st ++ unsteps ss
    /\ Forall (step_ok l) ss
    /\ chained (current_x st) ss
    /\ iteration_count st' = (iteration_count st + Z.of_nat (length ss))%Z
    /\ ((iteration_count st <= max_iterations)%Z ->
        (iteration_count st' <= max_iterations)%Z).
Proof.
  revert st. induction fuel as [ | fuel IH]; intros st; simpl.
  - destruct (loop_cond l st); [discriminate | ].
    intros H; inversion H; subst; clear H.
    exists []. simpl. rewrite app_nil_r.
    repeat split; [constructor | lia | tauto].
  - destruct (loop_cond l st) eqn:Hc.
    + intros H. apply bind_Ok in H. destruct H as [[st1 broke] [Hbody H]].
      pose proof (stage_body_inv _ _ Hbody) as [nx [Hnx [Hst [Hn [Hbr Hx]]]]].
      unfold loop_cond in Hc. apply andb_prop in Hc. destruct Hc as [_ Hlt].
      apply Z.ltb_lt in Hlt.
      set (s := ((current_x st, operating_y l (current_x st)),
                 (nx, operating_y l (current_x st)))).
      assert (Hs : step_ok l s) by (unfold step_ok, s; simpl; auto).
      destruct broke.
      * inversion H; subst; clear H.
        exists [s]. simpl. repeat split; auto; lia.
      * apply IH in H. destruct H as [ss [Hss [Hok [Hch [Hcnt Hmax]]]]].
        exists (s :: ss). simpl.
        rewrite Hss, Hst, <- app_assoc. simpl.
        repeat split; auto.
        -- rewrite <- Hx. exact Hch.
        -- lia.
        -- intros _. apply Hmax. lia.
    + intros H; inversion H; subst; clear H.
      exists []. simpl. rewrite app_nil_r.
      repeat split; [constructor | lia | tauto].
Qed.

(** At the cap the loop stops without an error and keeps its state. *)
Lemma stage_loop_at_cap (fuel : nat) (l : lines A) (st : loop_state A) :
  (max_iterations <= iteration_count st)%Z -> stage_loop fuel l st = Ok st.
Proof.
  intros Hcap.
  assert (Hc : loop_cond l st = false).
  { unfold loop_cond. apply andb_false_iff. right. apply Z.ltb_ge. exact Hcap. }
  destruct fuel; simpl; rewrite Hc; reflexivity.
Qed.

(** *** The design stage, seen from its result *)

Lemma stage_design_inv (c : config A) (g g' : globals A) :
  stage_design c g = Ok g' ->
  exists g1 ss,
    assign_lines c g = Ok g1
    /\ g_R_min g' = g_R_min g1 /\ g_R g' = g_R g1
    /\ g_xiF g' = g_xiF g1 /\ g_yiF g' = g_yiF g1
    /\ stages (g_loop g') = unsteps ss
    /\ Forall (step_ok (lines_of c g')) ss
    /\ chained (xD c) ss
    /\ iteration_count (g_loop g') = Z.of_nat (length ss)
    /\ (iteration_count (g_loop g') <= max_iterations)%Z.
Proof.
  unfold stage_design. intros H.
  apply bind_Ok in H. destruct H as [g1 [H1 H]].
  unfold run_loop in H. apply bind_Ok in H. destruct H as [st [Hloop H]].
  inversion H; subst; clear H.
  apply stage_loop_inv in Hloop.
  destruct Hloop as [ss [Hss [Hok [Hch [Hcnt Hmax]]]]].
  exists g1, ss. simpl in *.
  repeat split; auto.
  unfold max_iterations in *. lia.
Qed.

(** With a tabulated point above the feed the design stage finishes:
    neither the lookup nor the loop raises. *)
Lemma stage_loop_returns (fuel : nat) (l : lines A) (st : loop_state A) :
  equilibrium_data (cfg l) <> [] ->
  (max_iterations - iteration_count st <= Z.of_nat fuel)%Z ->
  exists st', stage_loop fuel l st = Ok st'.
Proof.
  intros Hne. revert st.
  induction fuel as [ | fuel IH]; intros st Hf; simpl.
  - destruct (loop_cond l st) eqn:Hc; [ | eexists; reflexivity].
    unfold loop_cond in Hc. apply andb_prop in Hc. destruct Hc as [_ Hlt].
    apply Z.ltb_lt in Hlt. lia.
  - destruct (loop_cond l st) eqn:Hc; [ | eexists; reflexivity].
    destruct (@binary_search_interpolate_returns
                (operating_y l (current_x st)) (x_eq (cfg l)) (y_eq (cfg l))
                (x_eq_y_eq_length (cfg l)) (@y_eq_nonempty (cfg l) Hne)) as [nx Hnx].
    unfold stage_body. rewrite Hnx. simpl.
    destruct (absv (current_x st - nx) <? tolerance); simpl.
    + eexists; reflexivity.
    + apply IH. cbn [iteration_count]. lia.
Qed.

Lemma stage_design_returns (c : config A) (g : globals A) :
  (exists p, In p (equilibrium_data c) /\ (snd p >? xF c) = true) ->
  exists g', stage_design c g = Ok g'.
Proof.
  intros [p [Hin Hp]].
  unfold stage_design, assign_lines.
  rewrite find_intersection_find.
  destruct (find (fun p0 => snd p0 >? xF c) (equilibrium_data c)) as [[xi yi] | ] eqn:Hfind.
  - simpl. unfold run_loop.
    set (g1 := init_loop c _).
    destruct (@stage_loop_returns (Z.to_nat max_iterations) (lines_of c g1) (g_loop g1))
      as [st Hst].
    + simpl. intros E. rewrite E in Hin. contradiction.
    + simpl. unfold max_iterations. lia.
    + rewrite Hst. simpl. eexists; reflexivity.
  - exfalso. pose proof (find_none _ _ Hfind p Hin) as Hn.
    simpl in Hn. congruence.
Qed.

(** A target that no row compares with, either way, leaves the loop at
    its first pass. *)
Lemma search_loop_incomparable (fuel : nat) (y : A) (xs ys : list A) (low high : Z) :
  length xs = length ys ->
  (0 <= low <= high)%Z -> (high < Z.of_nat (length ys))%Z ->
  (forall v, In v ys -> (v <? y) = false /\ (y <? v) = false) ->
  search_loop (S fuel) y xs ys low high
  = Ok (Returned (nth (Z.to_nat ((low + high) / 2)) xs (lit 0))).
Proof.
  intros Hlen Hlow Hhigh Hinc. simpl.
  destruct (Z.leb_spec low high) as [_ | H]; [ | lia].
  assert (Hmid : (low <= (low + high) / 2 <= high)%Z).
  { split; [apply Z.div_le_lower_bound | apply Z.div_le_upper_bound]; lia. }
  set (mid := ((low + high) / 2)%Z) in *.
  rewrite (@zindex_nth A ys mid (lit 0)) by lia. simpl.
  assert (Hin : In (nth (Z.to_nat mid) ys (lit 0)) ys) by (apply nth_In; lia).
  destruct (Hinc _ Hin) as [H1 H2]. rewrite H1, H2.
  rewrite (@zindex_nth A xs mid (lit 0)) by lia. reflexivity.
Qed.

Lemma inversion_of_incomparable (y : A) (xs ys : list A) :
  length xs = length ys -> ys <> [] ->
  (forall v, In v ys -> (v <? y) = false /\ (y <? v) = false) ->
  binary_search_interpolate y xs ys
  = Ok (nth ((length ys - 1) / 2) xs (lit 0)).
Proof.
  intros Hlen Hne Hinc.
  assert (Hpos : (0 < length ys)%nat) by (destruct ys; [congruence | simpl; lia]).
  assert (En : exists n, length ys = S n) by (exists (length ys - 1)%nat; lia).
  destruct En as [n En].
  unfold binary_search_interpolate.
  rewrite En at 1.
  rewrite (@search_loop_incomparable n y xs ys 0 (Z.of_nat (length ys) - 1) Hlen)
    by (auto; lia).
  cbn [bind]. f_equal. f_equal.
  change (0 + (Z.of_nat (length ys) - 1))%Z with (Z.of_nat (length ys) - 1)%Z.
  replace (Z.of_nat (length ys) - 1)%Z with (Z.of_nat (length ys - 1)) by lia.
  change 2%Z with (Z.of_nat 2). rewrite <- Nat2Z.inj_div. apply Nat2Z.id.
Qed.

End Generic.

(** ** Claims that hold on every instance of [Num] *)

Section Claims_generic.

Context {A : Type} {NA : Num A} {SA : Sqrt A}.
Local Open Scope num_scope.

(** C9.  The result of the script (the variables it leaves and the
    values it prints: R_min, R, the number of stages, the feed stage, the
    diameter) is the same whatever the variables held before the run, so
    two runs on one configuration agree: every variable is assigned from
    the configuration before it is read. *)
Theorem C9_script_ignores_earlier_state (c : config A) (g1 g2 : globals A) :
  script c g1 = script c g2.
Proof.
  unfold script.
  destruct (spline_fit (x_eq c) (y_eq c)) as [fitted | e | ];
    cbn [bind]; try reflexivity.
  unfold stage_design, assign_lines.
  destruct (find_intersection (x_eq c) (y_eq c) (xF c) (xD c)) as [r | e | ];
    simpl; try reflexivity.
  destruct (unpack r) as [[xiE yiE] | e | ]; simpl; try reflexivity.
  unfold run_loop, lines_of.
  cbn -[stage_loop Z.to_nat max_iterations sizing].
  destruct (stage_loop _ _ _); reflexivity.
Qed.

(** C6.  When no tabulated point has y above xF, [find_intersection]
    falls off its loop and returns None, the unpacking of line 58 raises
    TypeError, and the script stops there: no R_min is computed.  (The
    script as a whole ends with this TypeError unless the spline of line
    33 has refused the table, in which case it has stopped at line 33
    already.) *)
Theorem C6_lookup_fails_without_point (c : config A) (g : globals A) :
  (forall p, In p (equilibrium_data c) -> (snd p >? xF c) = false) ->
  find_intersection (x_eq c) (y_eq c) (xF c) (xD c) = Ok None
  /\ assign_lines c g = Err TypeError
  /\ stage_design c g = Err TypeError
  /\ script c g = (fitted <- spline_fit (x_eq c) (y_eq c) ;; Err TypeError).
Proof.
  intros Hnone.
  assert (Hf : find_intersection (x_eq c) (y_eq c) (xF c) (xD c) = Ok None).
  { rewrite find_intersection_find.
    destruct (find _ _) as [p | ] eqn:Hfind; [ | reflexivity].
    apply find_some in Hfind. destruct Hfind as [Hin Hgt].
    rewrite (Hnone p Hin) in Hgt. discriminate. }
  assert (Ha : assign_lines c g = Err TypeError).
  { unfold assign_lines. rewrite Hf. reflexivity. }
  assert (Hd : stage_design c g = Err TypeError).
  { unfold stage_design. rewrite Ha. reflexivity. }
  repeat split; auto.
  unfold script. rewrite Hd. reflexivity.
Qed.


(** The stage design fails only at the unpacking of line 58, and the
    model never gives its loop too few iterations. *)
Lemma stage_design_fails_at_lookup (c : config A) (g : globals A) (e : exn) :
  stage_design c g = Err e ->
  e = TypeError
  /\ forall p, In p (equilibrium_data c) -> (snd p >? xF c) = false.
Proof.
  intros Hd.
  assert (Hnone : forall p, In p (equilibrium_data c) -> (snd p >? xF c) = false).
  { intros p Hin. destruct (snd p >? xF c) eqn:Hp; [ | reflexivity].
    destruct (@stage_design_returns A NA c g) as [g' Hg'];
      [exists p; split; assumption | congruence]. }
  split; [ | exact Hnone].
  assert (Hf : find_intersection (x_eq c) (y_eq c) (xF c) (xD c) = Ok None).
  { rewrite find_intersection_find.
    destruct (find _ _) as [p | ] eqn:Hfind; [ | reflexivity].
    apply find_some in Hfind. destruct Hfind as [Hin Hgt].
    rewrite (Hnone p Hin) in Hgt. discriminate. }
  unfold stage_design, assign_lines in Hd. rewrite Hf in Hd.
  simpl in Hd. congruence.
Qed.

Lemma stage_design_fuel (c : config A) (g : globals A) :
  stage_design c g = Fuel -> False.
Proof.
  intros Hd. unfold stage_design in Hd.
  destruct (assign_lines c g) as [g1 | e | ] eqn:Ha; simpl in Hd.
  - unfold run_loop in Hd.
    pose proof (@stage_loop_fuel A NA (Z.to_nat max_iterations)
                  (lines_of c (init_loop c g1)) (g_loop (init_loop c g1))) as Hf.
    destruct (stage_loop _ _ _); simpl in Hd; try discriminate.
    apply Hf; [simpl; unfold max_iterations; lia | reflexivity].
  - discriminate.
  - unfold assign_lines in Ha. rewrite find_intersection_find in Ha.
    simpl in Ha. destruct (find _ _) as [[xi yi] | ]; discriminate.
Qed.

(** C5.  The stage design (lines 58-143) never runs out of the 1000
    iterations the loop allows.  When it finishes, the loop has run at
    most 1000 times, the warning of line 143 is printed exactly when it
    has run 1000 times, and with or without the warning both points of
    every iteration are in the stage list, which is what line 179 counts.
    It fails only with the TypeError of line 58, when the lookup finds no
    point; never because of the cap. *)
Theorem C5_iteration_cap (c : config A) (g : globals A) :
  match stage_design c g with
  | Ok g' =>
      let n := iteration_count (g_loop g') in
      (0 <= n <= max_iterations)%Z
      /\ (warning g' = true <-> n = max_iterations)
      /\ Z.of_nat (length (stages (g_loop g'))) = (2 * n)%Z
      /\ number_of_stages g' = n
  | Err e =>
      e = TypeError
      /\ forall p, In p (equilibrium_data c) -> (snd p >? xF c) = false
  | Fuel => False
  end.
Proof.
  destruct (stage_design c g) as [g1 | e | ] eqn:Hd.
  - apply stage_design_inv in Hd.
    destruct Hd as [g0 [ss [_ [_ [_ [_ [_ [Hst [_ [_ [Hcnt Hmax]]]]]]]]]]].
    assert (Hlen : Z.of_nat (length (stages (g_loop g1)))
                   = (2 * iteration_count (g_loop g1))%Z).
    { rewrite Hst, length_unsteps, Hcnt. lia. }
    cbv zeta. repeat split.
    + lia.
    + exact Hmax.
    + unfold warning. intros Hw. apply Z.geb_le in Hw. lia.
    + unfold warning. intros Hn. apply Z.geb_le. lia.
    + exact Hlen.
    + unfold number_of_stages. rewrite Hlen.
      rewrite Z.mul_comm. apply Z.div_mul. lia.
  - exact (stage_design_fails_at_lookup _ _ Hd).
  - exact (stage_design_fuel _ _ Hd).
Qed.

(** Both branches of [feed_line], as the code tests them. *)
Lemma feed_line_vertical (xf qv : A) :
  (qv =? lit 1) = true -> feed_line xf qv = ([xf; xf], [lit 0; lit 1]).
Proof. intros H. unfold feed_line. rewrite H. reflexivity. Qed.

Lemma feed_line_sloped (xf qv : A) :
  (qv =? lit 1) = false ->
  feed_line xf qv
  = (linspace (lit 0) (lit 1) 100,
     map (fun x => qv / (qv - lit 1) * x + (- xf) / (qv - lit 1))
         (linspace (lit 0) (lit 1) 100)).
Proof. intros H. unfold feed_line. rewrite H. reflexivity. Qed.

End Claims_generic.

(** ** Exact arithmetic: the order of [Q] behind the comparisons *)

Section Q_order.

Local Open Scope Q_scope.

Lemma Qltb_true (a b : Q) : Qltb a b = true <-> a < b.
Proof.
  unfold Qltb. rewrite negb_true_iff. split; intros H.
  - apply Qnot_le_lt. intros Hle. apply Qle_bool_iff in Hle. congruence.
  - destruct (Qle_bool b a) eqn:E; [ | reflexivity].
    apply Qle_bool_iff in E. exfalso. exact (Qlt_not_le _ _ H E).
Qed.

Lemma Qltb_false (a b : Q) : Qltb a b = false <-> b <= a.
Proof.
  unfold Qltb. rewrite negb_false_iff. apply Qle_bool_iff.
Qed.

End Q_order.

(** ** What the binary search finds, on every ordered instance *)

Section Ordered.

Context {A : Type} {NA : Num A} {OA : NumOrder A}.
Local Open Scope num_scope.

Local Notation d := (lit 0).

Lemma ltb_irrefl (a : A) : (a <? a) = false.
Proof.
  destruct (a <? a) eqn:E; [ | reflexivity].
  pose proof (ltb_asym _ _ E). congruence.
Qed.

Lemma ascending_adjacent (l : list A) :
  ascending l = true ->
  forall i, (S i < length l)%nat -> (nth i l d <? nth (S i) l d) = true.
Proof.
  induction l as [ | a l IH]; intros Hasc i Hi; [simpl in Hi; lia | ].
  destruct l as [ | b l]; [simpl in Hi; lia | ].
  change (ascending (a :: b :: l)) with ((a <? b) && ascending (b :: l)) in Hasc.
  apply andb_prop in Hasc. destruct Hasc as [Hab Hrest].
  destruct i as [ | i].
  - exact Hab.
  - change ((nth i (b :: l) d <? nth (S i) (b :: l) d) = true).
    apply IH; [exact Hrest | simpl in *; lia].
Qed.

Lemma ascending_nth (l : list A) :
  ascending l = true ->
  forall i j, (i < j < length l)%nat -> (nth i l d <? nth j l d) = true.
Proof.
  intros Hasc i j [Hij Hj].
  induction j as [ | j IH]; [lia | ].
  destruct (Nat.eq_dec i j) as [-> | Hne].
  - apply ascending_adjacent; assumption.
  - apply ltb_trans with (nth j l d).
    + apply IH; lia.
    + apply ascending_adjacent; assumption.
Qed.

Variables (xs ys : list A) (y : A).
Hypothesis Hlen : length xs = length ys.
Hypothesis Hsorted : ascending ys = true.

Local Notation yz i := (nth (Z.to_nat i) ys d).
Local Notation xz i := (nth (Z.to_nat i) xs d).
Local Notation rows := (Z.of_nat (length ys)).

Lemma yz_lt (i j : Z) : (0 <= i < j)%Z -> (j < rows)%Z -> (yz i <? yz j) = true.
Proof.
  intros Hij Hj. apply ascending_nth; [exact Hsorted | lia].
Qed.

Lemma midpoint_between (low high : Z) :
  (low <= high)%Z -> (low <= (low + high) / 2 <= high)%Z.
Proof.
  intros H. split;
    [apply Z.div_le_lower_bound | apply Z.div_le_upper_bound]; lia.
Qed.

(** A row that equals the target stays between [low] and [high] until
    [mid] falls on it. *)
Lemma search_returns_row (i : Z) :
  (0 <= i < rows)%Z -> (yz i =? y) = true ->
  forall (fuel : nat) (low high : Z),
    (0 <= low <= i)%Z -> (i <= high < rows)%Z ->
    (high - low + 1 <= Z.of_nat fuel)%Z ->
    search_loop fuel y xs ys low high = Ok (Returned (xz i)).
Proof.
  intros Hi Heq.
  induction fuel as [ | fuel IH]; intros low high Hlow Hhigh Hfuel; [lia | ].
  simpl. destruct (Z.leb_spec low high) as [Hle | Hgt]; [ | lia].
  pose proof (midpoint_between Hle) as Hmid.
  set (mid := ((low + high) / 2)%Z) in *.
  rewrite (@zindex_nth A ys mid d) by lia. simpl.
  destruct (Z.lt_trichotomy mid i) as [Hlt | [-> | Hgt]].
  - assert (Hy : (yz mid <? y) = true).
    { rewrite <- (eqb_ltb_r _ _ (yz mid) Heq). apply yz_lt; lia. }
    rewrite Hy. apply IH; lia.
  - assert (Hy1 : (yz i <? y) = false).
    { rewrite (eqb_ltb_l _ _ y Heq). apply ltb_irrefl. }
    assert (Hy2 : (y <? yz i) = false).
    { rewrite (eqb_ltb_r _ _ y Heq). apply ltb_irrefl. }
    rewrite Hy1, Hy2.
    rewrite (@zindex_nth A xs i d) by lia. reflexivity.
  - assert (Hy2 : (y <? yz mid) = true).
    { rewrite <- (eqb_ltb_l _ _ (yz mid) Heq). apply yz_lt; lia. }
    rewrite (ltb_asym _ _ Hy2), Hy2. apply IH; lia.
Qed.

(** With the rows before [k] below the target and the rows from [k] on
    above it, the loop ends with [low = k]. *)
Lemma search_exits_at (k : Z) :
  (0 <= k <= rows)%Z ->
  (forall j, (0 <= j < k)%Z -> (yz j <? y) = true) ->
  (forall j, (k <= j < rows)%Z -> (y <? yz j) = true) ->
  forall (fuel : nat) (low high : Z),
    (0 <= low <= k)%Z -> (k <= high + 1)%Z -> (high < rows)%Z ->
    (high - low + 1 <= Z.of_nat fuel)%Z ->
    search_loop fuel y xs ys low high = Ok (Exited k (k - 1)).
Proof.
  intros Hk Hbelow Habove.
  assert (Hexit : forall fuel low high,
             (0 <= low <= k)%Z -> (k <= high + 1)%Z -> (high < low)%Z ->
             search_loop fuel y xs ys low high = Ok (Exited k (k - 1))).
  { intros fuel low high Hlow Hhigh Hgt.
    assert (low = k) by lia. assert (high = (k - 1)%Z) by lia. subst low high.
    destruct fuel; simpl; destruct (Z.leb_spec k (k - 1)); try lia; reflexivity. }
  induction fuel as [ | fuel IH]; intros low high Hlow Hhigh Hrows Hfuel.
  - apply Hexit; lia.
  - destruct (Z_lt_le_dec high low) as [Hgt | Hle]; [apply Hexit; lia | ].
    simpl. destruct (Z.leb_spec low high) as [_ | Hgt]; [ | lia].
    pose proof (midpoint_between Hle) as Hmid.
    set (mid := ((low + high) / 2)%Z) in *.
    rewrite (@zindex_nth A ys mid d) by lia. simpl.
    destruct (Z_lt_le_dec mid k) as [Hlt | Hge].
    + rewrite (Hbelow mid) by lia. apply IH; lia.
    + rewrite (ltb_asym _ _ (Habove mid ltac:(lia))).
      rewrite (Habove mid) by lia. apply IH; lia.
Qed.

Hypothesis Hrows : ys <> [].

Lemma rows_positive : (0 < length ys)%nat.
Proof using Hrows. clear - Hrows. destruct ys; [congruence | simpl; lia]. Qed.

Lemma inversion_tabulated (i : nat) :
  (i < length ys)%nat -> (nth i ys d =? y) = true ->
  binary_search_interpolate y xs ys = Ok (nth i xs d).
Proof.
  intros Hi Heq. unfold binary_search_interpolate.
  rewrite (@search_returns_row (Z.of_nat i)); rewrite ?Nat2Z.id; try lia; auto.
Qed.

Lemma inversion_below :
  (y <? nth 0 ys d) = true ->
  binary_search_interpolate y xs ys = Ok (nth 0 xs d).
Proof.
  intros Hy. pose proof rows_positive as Hpos.
  unfold binary_search_interpolate.
  rewrite (@search_exits_at 0%Z); try lia.
  - simpl. apply (@zindex_nth A xs 0 d). lia.
  - intros j Hj. destruct (Z.eq_dec j 0) as [-> | Hne]; [exact Hy | ].
    apply ltb_trans with (nth 0 ys d); [exact Hy | ].
    apply (@yz_lt 0%Z j); lia.
Qed.

Lemma inversion_above :
  (nth (length ys - 1) ys d <? y) = true ->
  binary_search_interpolate y xs ys = Ok (nth (length ys - 1) xs d).
Proof.
  intros Hy. pose proof rows_positive as Hpos.
  unfold binary_search_interpolate.
  rewrite (@search_exits_at rows); try lia.
  - simpl.
    destruct (Z.eqb_spec rows 0); [lia | ].
    destruct (Z.geb_spec rows rows); [ | lia].
    assert (Hxs : xs <> []) by (intros E; rewrite E in Hlen; simpl in Hlen; lia).
    rewrite (zindex_last d Hxs), Hlen. reflexivity.
  - intros j Hj.
    destruct (Z.eq_dec j (rows - 1)) as [-> | Hne].
    + replace (Z.to_nat (rows - 1)) with (length ys - 1)%nat by lia. exact Hy.
    + apply ltb_trans with (nth (length ys - 1) ys d); [ | exact Hy].
      replace (length ys - 1)%nat with (Z.to_nat (rows - 1)) by lia.
      apply yz_lt; lia.
Qed.

Lemma inversion_between (i : nat) :
  (S i < length ys)%nat ->
  (nth i ys d <? y) = true -> (y <? nth (S i) ys d) = true ->
  binary_search_interpolate y xs ys
  = Ok (interpolate y (nth i xs d) (nth i ys d) (nth (S i) xs d) (nth (S i) ys d)).
Proof.
  intros Hi H1 H2. unfold binary_search_interpolate.
  assert (Hk : exists k, k = (Z.of_nat i + 1)%Z) by (eexists; reflexivity).
  destruct Hk as [k Hk].
  rewrite (@search_exits_at k); try lia.
  - simpl.
    destruct (Z.eqb_spec k 0); [lia | ].
    destruct (Z.geb_spec k rows); [lia | ].
    rewrite (@zindex_nth A xs (k - 1) d) by lia.
    rewrite (@zindex_nth A ys (k - 1) d) by lia.
    rewrite (@zindex_nth A xs k d) by lia.
    rewrite (@zindex_nth A ys k d) by lia.
    simpl.
    replace (Z.to_nat (k - 1)) with i by lia.
    replace (Z.to_nat k) with (S i) by lia.
    reflexivity.
  - intros j Hj. destruct (Z.eq_dec j (Z.of_nat i)) as [-> | Hne].
    + rewrite Nat2Z.id. exact H1.
    + apply ltb_trans with (nth i ys d); [ | exact H1].
      replace i with (Z.to_nat (Z.of_nat i)) at 1 by lia.
      apply yz_lt; lia.
  - intros j Hj. destruct (Z.eq_dec j k) as [-> | Hne].
    + replace (Z.to_nat k) with (S i) by lia. exact H2.
    + apply ltb_trans with (nth (S i) ys d); [exact H2 | ].
      replace (S i) with (Z.to_nat k) by lia.
      apply yz_lt; lia.
Qed.

(** Every target that equals itself, against rows that do, is in one of
    the four cases. *)
Lemma target_cases :
  (y =? y) = true ->
  (forall i, (i < length ys)%nat -> (nth i ys d =? nth i ys d) = true) ->
  (exists i, (i < length ys)%nat /\ (nth i ys d =? y) = true)
  \/ (y <? nth 0 ys d) = true
  \/ (nth (length ys - 1) ys d <? y) = true
  \/ (exists i, (S i < length ys)%nat
        /\ (nth i ys d <? y) = true /\ (y <? nth (S i) ys d) = true).
Proof using OA Hrows.
  clear - OA Hrows.
  intros Hy Hys. pose proof rows_positive as Hpos.
  assert (Hscan : forall k, (k <= length ys)%nat ->
            (exists i, (i < length ys)%nat /\ (nth i ys d =? y) = true)
            \/ (y <? nth 0 ys d) = true
            \/ (exists i, (S i < length ys)%nat
                  /\ (nth i ys d <? y) = true /\ (y <? nth (S i) ys d) = true)
            \/ (forall j, (j < k)%nat -> (nth j ys d <? y) = true)).
  { induction k as [ | k IH]; intros Hk.
    - right. right. right. intros j Hj. lia.
    - destruct (IH ltac:(lia)) as [H | [H | [H | H]]]; auto.
      destruct (nth k ys d <? y) eqn:E1.
      + right. right. right. intros j Hj.
        destruct (Nat.eq_dec j k) as [-> | Hne]; [exact E1 | apply H; lia].
      + destruct (y <? nth k ys d) eqn:E2.
        * destruct k as [ | k]; [right; left; exact E2 | ].
          right. right. left. exists k.
          split; [lia | ]. split; [apply H; lia | exact E2].
        * left. exists k. split; [lia | ].
          apply ltb_total; auto. }
  destruct (Hscan (length ys) ltac:(lia)) as [H | [H | [H | H]]]; auto.
  right. right. left. apply H. lia.
Qed.

End Ordered.

(** ** The two instances are ordered *)

Section Q_order_instance.

Local Open Scope Q_scope.

Lemma Qltb_congruent_l (a b c : Q) : a == b -> Qltb a c = Qltb b c.
Proof.
  intros H. destruct (Qltb b c) eqn:E.
  - apply Qltb_true in E. apply Qltb_true. lra.
  - apply Qltb_false in E. apply Qltb_false. lra.
Qed.

Lemma Qltb_congruent_r (a b c : Q) : a == b -> Qltb c a = Qltb c b.
Proof.
  intros H. destruct (Qltb c b) eqn:E.
  - apply Qltb_true in E. apply Qltb_true. lra.
  - apply Qltb_false in E. apply Qltb_false. lra.
Qed.

#[export] Instance Q_NumOrder : NumOrder Q.
Proof.
  split; simpl.
  - intros a b c H1 H2. apply Qltb_true in H1, H2. apply Qltb_true. lra.
  - intros a b H. apply Qltb_true in H. apply Qltb_false. lra.
  - intros a b c H. apply Qeq_bool_iff in H. apply Qltb_congruent_l. exact H.
  - intros a b c H. apply Qeq_bool_iff in H. apply Qltb_congruent_r. exact H.
  - intros a b _ _ H1 H2. apply Qltb_false in H1, H2.
    apply Qeq_bool_iff. lra.
Qed.

End Q_order_instance.

Section Float_order_instance.

Ltac sf_cases :=
  repeat match goal with
         | f : spec_float |- _ => destruct f
         | s : bool |- _ => destruct s
         end;
  simpl in *; try discriminate; try reflexivity.

Ltac cmp_cases :=
  repeat match goal with
         | H : context [Z.compare ?a ?b] |- _ =>
             let E := fresh "E" in destruct (Z.compare_spec a b) as [E | E | E]
         | |- context [Z.compare ?a ?b] =>
             let E := fresh "E" in destruct (Z.compare_spec a b) as [E | E | E]
         | H : context [Pos.compare_cont Eq ?a ?b] |- _ =>
             let E := fresh "E" in
             change (Pos.compare_cont Eq a b) with (Pos.compare a b) in *;
             destruct (Pos.compare_spec a b) as [E | E | E]
         | |- context [Pos.compare_cont Eq ?a ?b] =>
             let E := fresh "E" in
             change (Pos.compare_cont Eq a b) with (Pos.compare a b) in *;
             destruct (Pos.compare_spec a b) as [E | E | E]
         end;
  simpl in *; try discriminate; try reflexivity; try (exfalso; lia).

Lemma SFltb_trans (a b c : spec_float) :
  SFltb a b = true -> SFltb b c = true -> SFltb a c = true.
Proof.
  unfold SFltb, SFcompare. sf_cases; intros H1 H2; cmp_cases.
Qed.

Lemma SFltb_asym (a b : spec_float) : SFltb a b = true -> SFltb b a = false.
Proof.
  unfold SFltb, SFcompare. sf_cases; intros H1; cmp_cases.
Qed.

Lemma SFeqb_ltb_l (a b c : spec_float) :
  SFeqb a b = true -> SFltb a c = SFltb b c.
Proof.
  unfold SFeqb, SFltb, SFcompare. sf_cases; intros H1; cmp_cases.
Qed.

Lemma SFeqb_ltb_r (a b c : spec_float) :
  SFeqb a b = true -> SFltb c a = SFltb c b.
Proof.
  unfold SFeqb, SFltb, SFcompare. sf_cases; intros H1; cmp_cases.
Qed.

Lemma SFltb_total (a b : spec_float) :
  SFeqb a a = true -> SFeqb b b = true ->
  SFltb a b = false -> SFltb b a = false -> SFeqb a b = true.
Proof.
  unfold SFeqb, SFltb, SFcompare. sf_cases; intros H1 H2 H3 H4; cmp_cases.
Qed.

Lemma SFleb_trans (a b c : spec_float) :
  SFleb a b = true -> SFleb b c = true -> SFleb a c = true.
Proof.
  unfold SFleb, SFcompare. sf_cases; intros H1 H2; cmp_cases.
Qed.

Lemma SFltb_leb_trans (a b c : spec_float) :
  SFltb a b = true -> SFleb b c = true -> SFltb a c = true.
Proof.
  unfold SFltb, SFleb, SFcompare. sf_cases; intros H1 H2; cmp_cases.
Qed.

Lemma SFleb_ltb_trans (a b c : spec_float) :
  SFleb a b = true -> SFltb b c = true -> SFltb a c = true.
Proof.
  unfold SFltb, SFleb, SFcompare. sf_cases; intros H1 H2; cmp_cases.
Qed.

Lemma SFeqb_self_cases (a : spec_float) : SFeqb a a = false -> a = S754_nan.
Proof.
  unfold SFeqb, SFcompare. sf_cases; intros H; cmp_cases.
Qed.

(** The comparisons of binary64 are those of its specification
    ([FloatAxioms.ltb_spec], [FloatAxioms.eqb_spec]). *)
#[export] Instance float_NumOrder : NumOrder float.
Proof.
  split; simpl; intros *;
    rewrite ?FloatAxioms.ltb_spec, ?FloatAxioms.eqb_spec.
  - apply SFltb_trans.
  - apply SFltb_asym.
  - apply SFeqb_ltb_l.
  - apply SFeqb_ltb_r.
  - apply SFltb_total.
Qed.

End Float_order_instance.

(** ** Rounding to nearest is monotone

    From the definitions of [SpecFloat]: the float [binary_round_aux]
    returns rises with the number it is given, so the sum, the
    difference, the product and the quotient of the specification rise
    with an operand that is zero or positive. *)

Section Rounding.

Local Open Scope Z_scope.

Variables prec emax : Z.
Hypothesis Hprec : 0 < prec.
Hypothesis Hemax : 3 <= emax + prec.

Local Notation fexp := (SpecFloat.fexp prec emax).
Local Notation bra := (binary_round_aux prec emax).
Local Notation mk := (mk_float prec emax).
Local Notation finish := (finish_float prec emax).
Local Notation shift := (shift_of prec emax).
Local Notation div_scale := (div_scale_of prec emax).

Ltac fx := unfold SpecFloat.fexp, SpecFloat.emin in *; lia.

Lemma digits2_size (p : positive) : digits2_pos p = Pos.size p.
Proof. induction p; simpl; congruence. Qed.

Lemma digits_log2 (m : Z) : 0 < m -> Zdigits2 m = Z.log2 m + 1.
Proof.
  destruct m as [ | p | p]; try lia. intros _.
  simpl. rewrite digits2_size. destruct p; simpl; lia.
Qed.

Lemma digits_nonneg (m : Z) : 0 <= Zdigits2 m.
Proof. destruct m; simpl; lia. Qed.

Lemma digits_pos (m : Z) : 0 < m -> 0 < Zdigits2 m.
Proof. destruct m; simpl; lia. Qed.

Lemma digits_mono (a b : Z) : 0 <= a <= b -> Zdigits2 a <= Zdigits2 b.
Proof.
  intros H. destruct (Z.eq_dec a 0) as [-> | Ha]; [apply digits_nonneg | ].
  rewrite !digits_log2 by lia.
  pose proof (Z.log2_le_mono a b). lia.
Qed.

Lemma digits_lower (m : Z) : 0 < m -> 2 ^ (Zdigits2 m - 1) <= m.
Proof.
  intros H. rewrite digits_log2 by lia.
  replace (Z.log2 m + 1 - 1) with (Z.log2 m) by lia.
  apply Z.log2_spec. lia.
Qed.

Lemma digits_upper (m : Z) : 0 <= m -> m < 2 ^ Zdigits2 m.
Proof.
  intros H. destruct (Z.eq_dec m 0) as [-> | Hm]; [simpl; lia | ].
  rewrite digits_log2 by lia. apply Z.log2_spec. lia.
Qed.

Lemma digits_ge (m k : Z) : 0 <= k -> 2 ^ k <= m -> k + 1 <= Zdigits2 m.
Proof.
  intros Hk H. assert (0 < m) by (pose proof (Z.pow_pos_nonneg 2 k); lia).
  rewrite digits_log2 by lia.
  apply Z.log2_le_pow2 in H; lia.
Qed.

Lemma digits_le (m k : Z) : 0 <= k -> 0 <= m < 2 ^ k -> Zdigits2 m <= k.
Proof.
  intros Hk H. destruct (Z.eq_dec m 0) as [-> | Hm]; [simpl; lia | ].
  rewrite digits_log2 by lia.
  assert (Z.log2 m < k); [ | lia].
  apply Z.log2_lt_pow2; lia.
Qed.

Lemma digits_succ (m : Z) : 0 <= m -> Zdigits2 (m + 1) <= Zdigits2 m + 1.
Proof.
  intros H. apply digits_le; [pose proof (digits_nonneg m); lia | ].
  pose proof (digits_upper H).
  replace (Zdigits2 m + 1) with (Z.succ (Zdigits2 m)) by lia.
  rewrite Z.pow_succ_r by apply digits_nonneg. lia.
Qed.

Lemma digits_div2 (m : Z) : 0 <= m -> Zdigits2 (m / 2) = Z.max (Zdigits2 m - 1) 0.
Proof.
  intros H. destruct (Z.eq_dec m 0) as [-> | Hm]; [reflexivity | ].
  destruct (Z.eq_dec m 1) as [-> | Hm1]; [reflexivity | ].
  assert (0 < m / 2) by (apply Z.div_str_pos; lia).
  rewrite !digits_log2 by lia.
  rewrite <- Z.div2_div, Z.div2_spec, Z.log2_shiftr by lia.
  assert (0 < Z.log2 m) by (apply Z.log2_pos; lia). lia.
Qed.

Lemma digits_double (m : Z) : 0 < m -> Zdigits2 (2 * m) = Zdigits2 m + 1.
Proof.
  intros H. rewrite !digits_log2 by lia. rewrite Z.log2_double by lia. lia.
Qed.

Lemma digits_shift (m k : Z) :
  0 <= m -> 0 <= k -> Zdigits2 (m / 2 ^ k) = Z.max (Zdigits2 m - k) 0.
Proof.
  intros Hm Hk. revert m Hm. pattern k. apply natlike_ind; [ | | exact Hk].
  - intros m Hm. rewrite Z.pow_0_r, Z.div_1_r. pose proof (digits_nonneg m). lia.
  - intros j Hj IH m Hm.
    rewrite Z.pow_succ_r by lia.
    rewrite <- Z.div_div by (try apply Z.pow_pos_nonneg; lia).
    rewrite IH by (apply Z.div_pos; lia).
    rewrite digits_div2 by lia. lia.
Qed.

(** *** Shifting with round and sticky bits *)

Lemma shr_1_nonneg (r : shr_record) :
  0 <= shr_m r ->
  shr_1 r = {| shr_m := Z.div2 (shr_m r); shr_r := Z.odd (shr_m r);
               shr_s := shr_r r || shr_s r |}.
Proof.
  destruct r as [m r s]. simpl. intros H.
  destruct m as [ | [p | p | ] | p]; try lia; reflexivity.
Qed.

Lemma shr_1_m (r : shr_record) : 0 <= shr_m r -> shr_m (shr_1 r) = shr_m r / 2.
Proof. intros H. rewrite shr_1_nonneg by assumption. simpl. apply Z.div2_div. Qed.

Lemma shr_1_code_mono (r r' : shr_record) :
  0 <= shr_m r -> 0 <= shr_m r' -> shr_code r <= shr_code r' ->
  shr_code (shr_1 r) <= shr_code (shr_1 r').
Proof.
  intros H H' Hc. rewrite !shr_1_nonneg by assumption.
  unfold shr_code in *.
  pose proof (Z.div2_odd (shr_m r)). pose proof (Z.div2_odd (shr_m r')).
  destruct r as [m a b], r' as [m' a' b']; cbn [shr_m shr_r shr_s] in *.
  destruct (Z.odd m), (Z.odd m'), a, b, a', b'; cbn [Z.b2z orb] in *; lia.
Qed.

Lemma iter_pos_nat {T : Type} (f : T -> T) (p : positive) (x : T) :
  iter_pos f p x = Nat.iter (Pos.to_nat p) f x.
Proof.
  revert x. induction p as [p IH | p IH | ]; intros x; cbn [iter_pos].
  - rewrite !IH, Pos2Nat.inj_xI. rewrite <- Nat.iter_add.
    replace (S (2 * Pos.to_nat p))%nat with (S (Pos.to_nat p + Pos.to_nat p))%nat by lia.
    rewrite Nat.iter_succ_r. reflexivity.
  - rewrite !IH, Pos2Nat.inj_xO. rewrite <- Nat.iter_add.
    f_equal. lia.
  - reflexivity.
Qed.

Lemma shr_iter (r : shr_record) (e n : Z) :
  0 <= n -> shr r e n = (Nat.iter (Z.to_nat n) shr_1 r, e + n).
Proof.
  intros H. unfold shr. destruct n as [ | p | p]; try lia.
  - simpl. f_equal. lia.
  - rewrite iter_pos_nat. reflexivity.
Qed.

Lemma iter_m (k : nat) (r : shr_record) :
  0 <= shr_m r ->
  shr_m (Nat.iter k shr_1 r) = shr_m r / 2 ^ Z.of_nat k.
Proof.
  intros H. induction k as [ | k IH].
  - simpl. rewrite Z.div_1_r. reflexivity.
  - assert (Hk : 0 <= shr_m (Nat.iter k shr_1 r)).
    { rewrite IH. apply Z.div_pos; [lia | apply Z.pow_pos_nonneg; lia]. }
    rewrite Nat2Z.inj_succ, Z.pow_succ_r by lia.
    rewrite Nat.iter_succ, shr_1_m by assumption. rewrite IH.
    rewrite Z.div_div by (try apply Z.pow_pos_nonneg; lia).
    f_equal. apply Z.mul_comm.
Qed.

Lemma iter_code_mono (k : nat) (r r' : shr_record) :
  0 <= shr_m r -> 0 <= shr_m r' -> shr_code r <= shr_code r' ->
  shr_code (Nat.iter k shr_1 r) <= shr_code (Nat.iter k shr_1 r').
Proof.
  intros H H' Hc. induction k as [ | k IH]; [exact Hc | ].
  rewrite !Nat.iter_succ. apply shr_1_code_mono; try assumption;
    rewrite iter_m by assumption;
    (apply Z.div_pos; [lia | apply Z.pow_pos_nonneg; lia]).
Qed.

Lemma rnd_bounds (r : shr_record) : shr_m r <= rnd r <= shr_m r + 1.
Proof.
  unfold rnd. destruct r as [m [ | ] [ | ]];
    cbn [shr_m loc_of_shr_record round_nearest_even]; try lia.
  destruct (Z.even m); lia.
Qed.

Lemma rnd_mono (r r' : shr_record) : shr_code r <= shr_code r' -> rnd r <= rnd r'.
Proof.
  intros Hc. destruct (Z.eq_dec (shr_m r) (shr_m r')) as [E | E].
  - unfold rnd, shr_code in *. destruct r as [m a b], r' as [m' a' b'].
    cbn [shr_m shr_r shr_s] in *. subst m'.
    destruct a, b, a', b'; cbn [Z.b2z loc_of_shr_record round_nearest_even] in *;
      try lia; destruct (Z.even m); lia.
  - pose proof (rnd_bounds r). pose proof (rnd_bounds r').
    unfold shr_code in Hc.
    destruct (shr_r r), (shr_s r), (shr_r r'), (shr_s r'); cbn [Z.b2z] in Hc; lia.
Qed.

Lemma rec_loc (r : shr_record) :
  shr_record_of_loc (shr_m r) (loc_of_shr_record r) = r.
Proof. destruct r as [m [ | ] [ | ]]; reflexivity. Qed.

Lemma rec_m (m : Z) (l : location) : shr_m (shr_record_of_loc m l) = m.
Proof. destruct l as [ | [ | | ]]; reflexivity. Qed.


(** *** The two stages of [binary_round_aux] *)

Lemma bra_finish (s : bool) (m e : Z) (l : location) :
  bra s m e l
  = let '(r, e') := shr_fexp prec emax m e l in finish s (rnd r) e'.
Proof.
  unfold binary_round_aux, finish_float, mk_float, rnd.
  destruct (shr_fexp prec emax m e l) as [r e'].
  destruct (shr_fexp prec emax _ e' loc_Exact) as [r' e'']. reflexivity.
Qed.

Lemma shr_fexp_iter (m e : Z) (l : location) :
  0 <= shift m e ->
  shr_fexp prec emax m e l
  = (Nat.iter (Z.to_nat (shift m e)) shr_1 (shr_record_of_loc m l),
     fexp (Zdigits2 m + e)).
Proof.
  intros H. unfold shr_fexp. fold (shift m e).
  rewrite shr_iter by assumption. f_equal. unfold shift_of. lia.
Qed.

Lemma shr_fexp_id (m e : Z) (l : location) :
  shift m e <= 0 -> shr_fexp prec emax m e l = (shr_record_of_loc m l, e).
Proof.
  intros H. unfold shr_fexp. fold (shift m e).
  unfold shr. destruct (shift m e); try reflexivity. lia.
Qed.

Lemma finish_spec (s : bool) (M E : Z) :
  0 <= M -> shift M E <= 1 ->
  finish s M E = if shift M E <=? 0 then mk s M E else mk s (M / 2) (E + 1).
Proof.
  intros HM H. unfold finish_float.
  destruct (Z.leb_spec (shift M E) 0) as [H0 | H0].
  - rewrite shr_fexp_id by assumption. rewrite rec_m. reflexivity.
  - assert (H1 : shift M E = 1) by lia.
    unfold shr_fexp. fold (shift M E). rewrite H1.
    cbn [shr iter_pos shr_record_of_loc].
    rewrite shr_1_m by (cbn [shr_m]; lia). reflexivity.
Qed.

Lemma mk_le (M1 E1 M2 E2 : Z) :
  0 <= M1 -> 0 <= M2 ->
  M1 = 0 \/ (E1 < E2 /\ 0 < M2) \/ (E1 = E2 /\ M1 <= M2) ->
  SFleb (mk false M1 E1) (mk false M2 E2) = true.
Proof.
  intros H1 H2 H. unfold mk_float.
  destruct M1 as [ | p1 | p1]; try lia.
  - destruct M2 as [ | p2 | p2]; try lia; [reflexivity | ].
    destruct (E2 <=? emax - prec); reflexivity.
  - destruct M2 as [ | p2 | p2]; try lia.
    destruct (Z.leb_spec E1 (emax - prec)), (Z.leb_spec E2 (emax - prec));
      try reflexivity; try lia.
    unfold SFleb, SFcompare.
    destruct (Z.compare_spec E1 E2) as [E | E | E]; try reflexivity; try lia.
    rewrite Pos.compare_cont_spec. unfold Pos.switch_Eq.
    destruct (Pos.compare_spec p1 p2); try reflexivity. lia.
Qed.

Lemma mk_nonneg (M E : Z) : 0 <= M -> SFleb (S754_zero false) (mk false M E) = true.
Proof.
  intros H. destruct M as [ | p | p]; try lia; cbn [mk_float]; [reflexivity | ].
  destruct (E <=? emax - prec); reflexivity.
Qed.

Lemma shift_mono (a b e : Z) : 0 <= a <= b -> shift a e <= shift b e.
Proof. intros H. pose proof (digits_mono H). unfold shift_of. fx. Qed.

Lemma shift_succ (m e : Z) : 0 <= m -> shift (m + 1) e <= shift m e + 1.
Proof. intros H. pose proof (digits_succ H). unfold shift_of. fx. Qed.

(** After the first shift the mantissa fits the format. *)
Lemma shifted_fits (m e : Z) :
  0 <= m -> 0 <= shift m e ->
  let E := fexp (Zdigits2 m + e) in
  let mt := m / 2 ^ shift m e in
  0 <= mt /\ shift mt E <= 0 /\ Zdigits2 mt <= prec
  /\ (E <> SpecFloat.emin prec emax -> Zdigits2 mt = prec).
Proof.
  intros Hm Hn E mt.
  assert (Hmt : 0 <= mt) by (apply Z.div_pos; [lia | apply Z.pow_pos_nonneg; lia]).
  assert (Hd : Zdigits2 mt = Z.max (Zdigits2 m - shift m e) 0)
    by (apply digits_shift; assumption).
  pose proof (digits_nonneg m).
  unfold shift_of in *. fold E in Hn, Hd |- *. clearbody mt.
  repeat split; try assumption; unfold E in *; fx.
Qed.

Lemma pow_prec : 2 ^ prec = 2 * 2 ^ (prec - 1) /\ 0 < 2 ^ (prec - 1).
Proof.
  split.
  - rewrite <- Z.pow_succ_r by lia. f_equal. lia.
  - apply Z.pow_pos_nonneg; lia.
Qed.

Lemma carry_mantissa (M E : Z) :
  0 <= M -> SpecFloat.emin prec emax <= E -> 0 < shift M E ->
  Zdigits2 M = prec + shift M E /\ 2 ^ prec <= M.
Proof.
  intros HM HE Hs.
  assert (Hd : Zdigits2 M = prec + shift M E) by (unfold shift_of in *; fx).
  split; [exact Hd | ].
  assert (0 < M).
  { destruct (Z.eq_dec M 0) as [-> | ]; [ | lia]. simpl in Hd. lia. }
  pose proof (digits_lower H).
  assert (2 ^ prec <= 2 ^ (Zdigits2 M - 1)) by (apply Z.pow_le_mono_r; lia).
  lia.
Qed.

Lemma bra_unfold (m e : Z) (l : location) :
  0 <= m -> 0 <= shift m e ->
  let E := fexp (Zdigits2 m + e) in
  let r := Nat.iter (Z.to_nat (shift m e)) shr_1 (shr_record_of_loc m l) in
  shr_m r = m / 2 ^ shift m e
  /\ 0 <= rnd r /\ shift (rnd r) E <= 1
  /\ bra false m e l
     = if shift (rnd r) E <=? 0 then mk false (rnd r) E
       else mk false (rnd r / 2) (E + 1).
Proof.
  intros Hm Hn E r.
  assert (Hr : shr_m r = m / 2 ^ shift m e).
  { unfold r. rewrite iter_m by (rewrite rec_m; lia).
    rewrite rec_m, Z2Nat.id by lia. reflexivity. }
  destruct (@shifted_fits m e Hm Hn) as [Hmt [Hst [Hdt _]]]. fold E in Hst.
  rewrite <- Hr in Hmt, Hst, Hdt.
  pose proof (rnd_bounds r) as Hb.
  assert (H0 : 0 <= rnd r) by lia.
  assert (Hs : shift (rnd r) E <= 1).
  { pose proof (@shift_mono (rnd r) (shr_m r + 1) E ltac:(lia)).
    pose proof (@shift_succ (shr_m r) E Hmt). lia. }
  repeat split; try assumption.
  rewrite bra_finish, shr_fexp_iter by assumption. fold r. fold E.
  apply finish_spec; assumption.
Qed.

Lemma code_rec_le (m m' : Z) (l l' : location) :
  shr_code (shr_record_of_loc m l) <= shr_code (shr_record_of_loc m' l') -> m <= m'.
Proof.
  unfold shr_code. destruct l as [ | [ | | ]], l' as [ | [ | | ]];
    cbn [shr_record_of_loc shr_m shr_r shr_s Z.b2z]; lia.
Qed.

(** Same scale: a larger mantissa-with-location rounds to a larger float. *)
Lemma bra_mono (m m' e : Z) (l l' : location) :
  0 <= m -> 0 <= shift m e ->
  shr_code (shr_record_of_loc m l) <= shr_code (shr_record_of_loc m' l') ->
  SFleb (bra false m e l) (bra false m' e l') = true.
Proof.
  intros Hm Hn Hc.
  pose proof (code_rec_le _ _ _ _ Hc) as Hmm.
  assert (Hm' : 0 <= m') by lia.
  pose proof (@shift_mono m m' e ltac:(lia)) as Hnn.
  assert (Hn' : 0 <= shift m' e) by lia.
  destruct (@bra_unfold m e l Hm Hn) as [Hr1 [H01 [Hs1 ->]]].
  destruct (@bra_unfold m' e l' Hm' Hn') as [Hr2 [H02 [Hs2 ->]]].
  destruct (@shifted_fits m e Hm Hn) as [Hmt1 [Hst1 [Hdt1 _]]].
  destruct (@shifted_fits m' e Hm' Hn') as [Hmt2 [Hst2 [Hdt2 Hnorm2]]].
  rewrite <- Hr1 in Hmt1, Hst1, Hdt1. rewrite <- Hr2 in Hmt2, Hst2, Hdt2, Hnorm2.
  set (r1 := Nat.iter (Z.to_nat (shift m e)) shr_1 (shr_record_of_loc m l)) in *.
  set (r2 := Nat.iter (Z.to_nat (shift m' e)) shr_1 (shr_record_of_loc m' l')) in *.
  set (E1 := fexp (Zdigits2 m + e)) in *.
  set (E2 := fexp (Zdigits2 m' + e)) in *.
  pose proof (rnd_bounds r1) as Hb1. pose proof (rnd_bounds r2) as Hb2.
  assert (HE1 : SpecFloat.emin prec emax <= E1) by (unfold E1; fx).
  assert (HE2 : SpecFloat.emin prec emax <= E2) by (unfold E2; fx).
  assert (HEE : E1 <= E2) by (unfold E1, E2, shift_of in *; lia).
  destruct pow_prec as [Hpp HP].
  assert (Hdiv0 : forall a, 0 <= a -> 0 <= a / 2) by (intros; apply Z.div_pos; lia).
  destruct (Z.eq_dec E1 E2) as [HE | HE].
  - assert (Hsh : shift m e = shift m' e) by (unfold E1, E2, shift_of in *; lia).
    assert (Hrr : rnd r1 <= rnd r2).
    { apply rnd_mono. unfold r1, r2. rewrite Hsh.
      apply iter_code_mono; rewrite ?rec_m; assumption. }
    pose proof (@shift_mono (rnd r1) (rnd r2) E1 ltac:(lia)) as Hss.
    rewrite <- HE in *.
    destruct (Z.leb_spec (shift (rnd r1) E1) 0), (Z.leb_spec (shift (rnd r2) E1) 0);
      try lia; apply mk_le; auto.
    + destruct (carry_mantissa H02 HE1 ltac:(lia)) as [_ Hc2].
      right; left. split; [lia | ]. apply Z.div_str_pos. lia.
    + right; right. split; [reflexivity | ]. apply Z.div_le_mono; lia.
  - assert (HEl : E1 < E2) by lia.
    assert (Hd2 : Zdigits2 (shr_m r2) = prec) by (apply Hnorm2; lia).
    assert (Hpos2 : 0 < shr_m r2).
    { destruct (Z.eq_dec (shr_m r2) 0) as [Hz | ]; [ | lia].
      rewrite Hz in Hd2. simpl in Hd2. lia. }
    pose proof (digits_lower Hpos2) as Hlow2. rewrite Hd2 in Hlow2.
    assert (Hup1 : shr_m r1 < 2 ^ prec).
    { pose proof (digits_upper Hmt1).
      assert (2 ^ Zdigits2 (shr_m r1) <= 2 ^ prec)
        by (apply Z.pow_le_mono_r; [lia | assumption]).
      lia. }
    destruct (Z.leb_spec (shift (rnd r1) E1) 0), (Z.leb_spec (shift (rnd r2) E2) 0);
      apply mk_le; auto.
    + right; left. lia.
    + destruct (carry_mantissa H02 HE2 ltac:(lia)) as [_ Hc2].
      right; left. split; [lia | ]. apply Z.div_str_pos. lia.
    + destruct (Z.eq_dec (E1 + 1) E2) as [HE' | HE'].
      * right; right. split; [exact HE' | ].
        assert (rnd r1 / 2 <= 2 ^ (prec - 1)); [ | lia].
        apply Z.div_le_upper_bound; lia.
      * right; left. lia.
    + destruct (carry_mantissa H02 HE2 ltac:(lia)) as [_ Hc2].
      right; left. split; [lia | ]. apply Z.div_str_pos. lia.
Qed.


(** *** The same value at a finer scale *)

Lemma bra_refine (s : bool) (m e : Z) (l : location) :
  0 <= m ->
  let r := shr_1 (shr_record_of_loc m l) in
  0 <= shift (shr_m r) (e + 1) ->
  bra s m e l = bra s (shr_m r) (e + 1) (loc_of_shr_record r).
Proof.
  intros Hm r Hn.
  assert (Hr : shr_m r = m / 2) by (unfold r; rewrite shr_1_m, rec_m; rewrite ?rec_m; lia).
  pose proof (digits_div2 Hm) as Hd. pose proof (digits_nonneg m) as Hd0.
  rewrite Hr in Hn.
  assert (Hsh : shift m e = shift (m / 2) (e + 1) + 1) by (unfold shift_of in *; fx).
  assert (HE : fexp (Zdigits2 m + e) = fexp (Zdigits2 (m / 2) + (e + 1)))
    by (unfold shift_of in *; fx).
  rewrite !bra_finish. rewrite Hr.
  rewrite !shr_fexp_iter by lia.
  rewrite Hsh, HE. rewrite <- Hr, rec_loc.
  replace (Z.to_nat (shift (shr_m r) (e + 1) + 1))
    with (S (Z.to_nat (shift (shr_m r) (e + 1)))) by (rewrite Hr; lia).
  rewrite Nat.iter_succ_r. reflexivity.
Qed.

Lemma digits_scale (m : Z) (j : nat) :
  0 < m -> Zdigits2 (m * 2 ^ Z.of_nat j) = Zdigits2 m + Z.of_nat j.
Proof.
  intros Hm. induction j as [ | j IH].
  - rewrite Z.mul_1_r. simpl. lia.
  - rewrite Nat2Z.inj_succ, Z.pow_succ_r by lia.
    replace (m * (2 * 2 ^ Z.of_nat j)) with (2 * (m * 2 ^ Z.of_nat j)) by lia.
    rewrite digits_double; [lia | ].
    apply Z.mul_pos_pos; [lia | apply Z.pow_pos_nonneg; lia].
Qed.

Lemma bra_scale (s : bool) (m e : Z) (j : nat) :
  0 < m -> 0 <= shift m e ->
  bra s (m * 2 ^ Z.of_nat j) (e - Z.of_nat j) loc_Exact = bra s m e loc_Exact.
Proof.
  intros Hm Hn. induction j as [ | j IH].
  - rewrite Z.mul_1_r. f_equal. simpl. lia.
  - rewrite <- IH.
    assert (Hp : 0 < m * 2 ^ Z.of_nat j)
      by (apply Z.mul_pos_pos; [lia | apply Z.pow_pos_nonneg; lia]).
    assert (Hm2 : m * 2 ^ Z.of_nat (S j) = 2 * (m * 2 ^ Z.of_nat j))
      by (rewrite Nat2Z.inj_succ, Z.pow_succ_r; lia).
    assert (Hr : shr_1 (shr_record_of_loc (m * 2 ^ Z.of_nat (S j)) loc_Exact)
                 = shr_record_of_loc (m * 2 ^ Z.of_nat j) loc_Exact).
    { rewrite shr_1_nonneg by (rewrite rec_m; lia).
      cbn [shr_record_of_loc shr_m shr_r shr_s orb]. rewrite Hm2.
      rewrite Z.div2_div, Z.odd_mul, Z.mul_comm, Z.div_mul by lia. reflexivity. }
    rewrite (@bra_refine s (m * 2 ^ Z.of_nat (S j)) (e - Z.of_nat (S j)) loc_Exact)
      by (rewrite ?Hr, ?rec_m; try lia;
          unfold shift_of in *; rewrite digits_scale by lia; fx).
    rewrite Hr. cbn [shr_record_of_loc shr_m loc_of_shr_record].
    f_equal. lia.
Qed.

Lemma pos_iter_xO (p d : positive) :
  Zpos (Pos.iter xO p d) = Zpos p * 2 ^ Zpos d.
Proof.
  induction d as [ | d IH] using Pos.peano_ind.
  - cbn [Pos.iter]. change (2 ^ 1) with 2. lia.
  - rewrite Pos.iter_succ, Pos2Z.inj_succ, Z.pow_succ_r by lia.
    rewrite Pos2Z.inj_xO, IH. lia.
Qed.

Lemma shl_align_spec (p : positive) (e e' : Z) :
  exists j : nat,
    shl_align p e e' = (Z.to_pos (Zpos p * 2 ^ Z.of_nat j), e - Z.of_nat j)
    /\ Z.of_nat j = Z.max (e - e') 0.
Proof.
  unfold shl_align. destruct (e' - e) as [ | d | d] eqn:Hd.
  - exists O. split; [ | lia]. rewrite Z.mul_1_r. f_equal. lia.
  - exists O. split; [ | lia]. rewrite Z.mul_1_r. f_equal. lia.
  - exists (Pos.to_nat d). rewrite positive_nat_Z. split; [ | lia].
    rewrite <- pos_iter_xO. f_equal. lia.
Qed.

(** [binary_round] is [binary_round_aux] at a scale where nothing is
    shifted in. *)
Lemma binary_round_bra (s : bool) (p : positive) (e : Z) :
  exists j : nat,
    binary_round prec emax s p e
    = bra s (Zpos p * 2 ^ Z.of_nat j) (e - Z.of_nat j) loc_Exact
    /\ 0 <= shift (Zpos p * 2 ^ Z.of_nat j) (e - Z.of_nat j).
Proof.
  unfold binary_round.
  destruct (shl_align_spec p e (fexp (Zpos (digits2_pos p) + e))) as [j [-> Hj]].
  exists j.
  assert (Hpos : 0 < Zpos p * 2 ^ Z.of_nat j)
    by (apply Z.mul_pos_pos; [lia | apply Z.pow_pos_nonneg; lia]).
  rewrite Z2Pos.id by assumption. split; [reflexivity | ].
  unfold shift_of. rewrite digits_scale by lia.
  change (Zdigits2 (Zpos p)) with (Zpos (digits2_pos p)). fx.
Qed.

Lemma pow_add (a b : Z) : 0 <= a -> 0 <= b -> 2 ^ (a + b) = 2 ^ a * 2 ^ b.
Proof. intros. apply Z.pow_add_r; assumption. Qed.

(** Rounding is monotone in the value rounded. *)
Lemma bra_value_mono (m1 m2 e1 e2 e0 : Z) :
  0 < m1 -> 0 < m2 -> 0 <= shift m1 e1 -> 0 <= shift m2 e2 ->
  e0 <= e1 -> e0 <= e2 ->
  m1 * 2 ^ (e1 - e0) <= m2 * 2 ^ (e2 - e0) ->
  SFleb (bra false m1 e1 loc_Exact) (bra false m2 e2 loc_Exact) = true.
Proof.
  intros Hp1 Hp2 Hs1 Hs2 H1 H2 Hv.
  rewrite <- (@bra_scale false _ _ (Z.to_nat (e1 - e0)) Hp1 Hs1).
  rewrite <- (@bra_scale false _ _ (Z.to_nat (e2 - e0)) Hp2 Hs2).
  rewrite !Z2Nat.id by lia.
  replace (e1 - (e1 - e0)) with e0 by lia.
  replace (e2 - (e2 - e0)) with e0 by lia.
  assert (Hq1 : 0 < 2 ^ (e1 - e0)) by (apply Z.pow_pos_nonneg; lia).
  apply bra_mono.
  - lia.
  - unfold shift_of in *.
    replace (e1 - e0) with (Z.of_nat (Z.to_nat (e1 - e0))) by lia.
    rewrite digits_scale by lia. fx.
  - unfold shr_code. cbn [shr_record_of_loc shr_m shr_r shr_s Z.b2z]. lia.
Qed.

Lemma binary_round_mono (p1 p2 : positive) (e1 e2 e0 : Z) :
  e0 <= e1 -> e0 <= e2 ->
  Zpos p1 * 2 ^ (e1 - e0) <= Zpos p2 * 2 ^ (e2 - e0) ->
  SFleb (binary_round prec emax false p1 e1) (binary_round prec emax false p2 e2)
  = true.
Proof.
  intros H1 H2 Hv.
  destruct (binary_round_bra false p1 e1) as [j1 [-> Hs1]].
  destruct (binary_round_bra false p2 e2) as [j2 [-> Hs2]].
  assert (Hp1 : 0 < Zpos p1 * 2 ^ Z.of_nat j1)
    by (apply Z.mul_pos_pos; [lia | apply Z.pow_pos_nonneg; lia]).
  assert (Hp2 : 0 < Zpos p2 * 2 ^ Z.of_nat j2)
    by (apply Z.mul_pos_pos; [lia | apply Z.pow_pos_nonneg; lia]).
  apply (@bra_value_mono _ _ _ _
           (Z.min e0 (Z.min (e1 - Z.of_nat j1) (e2 - Z.of_nat j2))));
    try assumption; try lia.
  set (ec := Z.min e0 (Z.min (e1 - Z.of_nat j1) (e2 - Z.of_nat j2))).
  rewrite <- !Z.mul_assoc, <- !pow_add by lia.
  replace (Z.of_nat j1 + (e1 - Z.of_nat j1 - ec)) with ((e1 - e0) + (e0 - ec)) by lia.
  replace (Z.of_nat j2 + (e2 - Z.of_nat j2 - ec)) with ((e2 - e0) + (e0 - ec)) by lia.
  rewrite !pow_add by lia. rewrite !Z.mul_assoc.
  apply Z.mul_le_mono_nonneg_r; [apply Z.pow_nonneg; lia | exact Hv].
Qed.

Lemma bra_nonneg (s0 : bool) (m e : Z) (l : location) :
  0 <= m -> 0 <= shift m e -> SFleb (S754_zero s0) (bra false m e l) = true.
Proof.
  intros Hm Hn. destruct (@bra_unfold m e l Hm Hn) as [_ [H0 [_ ->]]].
  assert (Hz : forall M E, 0 <= M -> SFleb (S754_zero s0) (mk false M E) = true).
  { intros M E H. destruct M as [ | p | p]; try lia; cbn [mk_float]; [reflexivity | ].
    destruct (E <=? emax - prec); reflexivity. }
  destruct (shift _ _ <=? 0); apply Hz; [assumption | apply Z.div_pos; lia].
Qed.

Lemma binary_round_nonneg (s0 : bool) (p : positive) (e : Z) :
  SFleb (S754_zero s0) (binary_round prec emax false p e) = true.
Proof.
  destruct (binary_round_bra false p e) as [j [-> Hs]].
  apply bra_nonneg; [ | assumption].
  apply Z.mul_nonneg_nonneg; [lia | apply Z.pow_nonneg; lia].
Qed.

(** *** Valid floats *)

Lemma bounded_spec (m : positive) (e : Z) :
  bounded prec emax m e = true ->
  fexp (Zdigits2 (Zpos m) + e) = e /\ e <= emax - prec.
Proof.
  unfold bounded, canonical_mantissa. intros H.
  apply andb_true_iff in H. destruct H as [H1 H2].
  apply Z.eqb_eq in H1. apply Z.leb_le in H2. split; assumption.
Qed.

Lemma binary_round_id (s : bool) (m : positive) (e : Z) :
  bounded prec emax m e = true ->
  binary_round prec emax s m e = S754_finite s m e.
Proof.
  intros H. destruct (@bounded_spec m e H) as [Hc He].
  unfold binary_round. change (Zpos (digits2_pos m)) with (Zdigits2 (Zpos m)).
  rewrite Hc. unfold shl_align. rewrite Z.sub_diag.
  unfold binary_round_aux.
  rewrite shr_fexp_id by (unfold shift_of; lia).
  cbn [shr_record_of_loc shr_m loc_of_shr_record round_nearest_even].
  rewrite shr_fexp_id by (unfold shift_of; lia).
  cbn [shr_record_of_loc shr_m].
  apply Z.leb_le in He. rewrite He. reflexivity.
Qed.

Lemma finite_le_spec (m1 m2 : positive) (e1 e2 : Z) :
  SFleb (S754_finite false m1 e1) (S754_finite false m2 e2) = true ->
  e1 < e2 \/ (e1 = e2 /\ (m1 <= m2)%positive).
Proof.
  unfold SFleb, SFcompare.
  destruct (Z.compare_spec e1 e2) as [E | E | E]; intros H.
  - right. split; [exact E | ].
    rewrite Pos.compare_cont_spec in H. unfold Pos.switch_Eq in H.
    destruct (Pos.compare_spec m1 m2); try discriminate; lia.
  - left. exact E.
  - discriminate.
Qed.

(** The order of valid floats is the order of their values. *)
Lemma value_order (m1 m2 : positive) (e1 e2 e0 : Z) :
  bounded prec emax m1 e1 = true -> bounded prec emax m2 e2 = true ->
  SFleb (S754_finite false m1 e1) (S754_finite false m2 e2) = true ->
  e0 <= e1 -> e0 <= e2 ->
  Zpos m1 * 2 ^ (e1 - e0) <= Zpos m2 * 2 ^ (e2 - e0).
Proof.
  intros Hb1 Hb2 Hle H1 H2.
  destruct (@bounded_spec m1 e1 Hb1) as [Hc1 _]. destruct (@bounded_spec m2 e2 Hb2) as [Hc2 _].
  apply finite_le_spec in Hle. destruct Hle as [Hlt | [-> Hm]].
  - assert (Hd2 : Zdigits2 (Zpos m2) = prec) by fx.
    assert (Hd1 : Zdigits2 (Zpos m1) <= prec) by fx.
    pose proof (@digits_lower (Zpos m2) ltac:(lia)) as Hl2. rewrite Hd2 in Hl2.
    pose proof (@digits_upper (Zpos m1) ltac:(lia)) as Hu1.
    assert (Hu1' : 2 ^ Zdigits2 (Zpos m1) <= 2 ^ prec)
      by (apply Z.pow_le_mono_r; lia).
    destruct pow_prec as [Hpp HP].
    replace (e2 - e0) with ((e2 - e1) + (e1 - e0)) by lia.
    rewrite pow_add by lia. rewrite Z.mul_assoc.
    apply Z.mul_le_mono_nonneg_r; [apply Z.pow_nonneg; lia | ].
    assert (H2b : 2 ^ 1 <= 2 ^ (e2 - e1)) by (apply Z.pow_le_mono_r; lia).
    change (2 ^ 1) with 2 in H2b. nia.
  - apply Z.mul_le_mono_nonneg_r; [apply Z.pow_nonneg; lia | lia].
Qed.

Lemma finite_le_refl (m : positive) (e : Z) :
  SFleb (S754_finite false m e) (S754_finite false m e) = true.
Proof.
  unfold SFleb, SFcompare. rewrite Z.compare_refl.
  rewrite Pos.compare_cont_spec, Pos.compare_refl. reflexivity.
Qed.

(** *** Multiplication by a positive float *)

Lemma mul_shift (mu mk : positive) (eu ek : Z) :
  bounded prec emax mu eu = true -> bounded prec emax mk ek = true ->
  0 <= shift (Zpos (mu * mk)) (eu + ek).
Proof.
  intros Hu Hk.
  destruct (@bounded_spec mu eu Hu) as [Hcu _]. destruct (@bounded_spec mk ek Hk) as [Hck _].
  assert (Hd : Zdigits2 (Zpos mu) + Zdigits2 (Zpos mk) - 1
               <= Zdigits2 (Zpos (mu * mk))).
  { rewrite Pos2Z.inj_mul. rewrite !digits_log2 by lia.
    pose proof (@Z.log2_mul_below (Zpos mu) (Zpos mk)). lia. }
  pose proof (@digits_pos (Zpos mu)). pose proof (@digits_pos (Zpos mk)).
  unfold shift_of. fx.
Qed.

Lemma SFmul_mono (u v : spec_float) (mk : positive) (ek : Z) :
  SpecFloat.valid_binary prec emax u = true ->
  SpecFloat.valid_binary prec emax v = true ->
  bounded prec emax mk ek = true ->
  nonneg_fin u = true -> nonneg_fin v = true ->
  SFleb u v = true ->
  let k := S754_finite false mk ek in
  SFleb (S754_zero false) (SFmul prec emax u k) = true
  /\ SFleb (SFmul prec emax u k) (SFmul prec emax v k) = true.
Proof.
  intros Vu Vv Vk Nu Nv Hle k.
  destruct u as [su | | | [ | ] mu eu]; try discriminate;
  destruct v as [sv | | | [ | ] mv ev]; try discriminate;
  cbn [SFmul k xorb SpecFloat.valid_binary] in *.
  - destruct su, sv; split; reflexivity.
  - split; [destruct su; reflexivity | ].
    apply bra_nonneg; [lia | apply mul_shift; assumption].
  - split.
    + apply bra_nonneg; [lia | apply mul_shift; assumption].
    + apply (@bra_value_mono _ _ _ _ (Z.min (eu + ek) (ev + ek)));
        try (apply mul_shift; assumption); try lia.
      pose proof (@value_order mu mv eu ev (Z.min eu ev) Vu Vv Hle
                    ltac:(lia) ltac:(lia)) as Hv.
      rewrite !Pos2Z.inj_mul.
      replace (eu + ek - Z.min (eu + ek) (ev + ek)) with (eu - Z.min eu ev) by lia.
      replace (ev + ek - Z.min (eu + ek) (ev + ek)) with (ev - Z.min eu ev) by lia.
      nia.
Qed.


(** *** Sums and differences *)

Lemma shl_align_fst (p : positive) (e ez : Z) :
  ez <= e -> Zpos (fst (shl_align p e ez)) = Zpos p * 2 ^ (e - ez).
Proof.
  intros H. destruct (shl_align_spec p e ez) as [j [-> Hj]]. cbn [fst].
  rewrite Z2Pos.id by (apply Z.mul_pos_pos; [lia | apply Z.pow_pos_nonneg; lia]).
  f_equal. f_equal. lia.
Qed.

Lemma normalize_nonneg (s0 : bool) (N e : Z) :
  0 <= N -> SFleb (S754_zero s0) (binary_normalize prec emax N e false) = true.
Proof.
  intros H. destruct N as [ | p | p]; try lia; cbn [binary_normalize].
  - destruct s0; reflexivity.
  - apply binary_round_nonneg.
Qed.

Lemma normalize_mono (N1 N2 e1 e2 e0 : Z) :
  0 <= N1 -> e0 <= e1 -> e0 <= e2 ->
  N1 * 2 ^ (e1 - e0) <= N2 * 2 ^ (e2 - e0) ->
  SFleb (binary_normalize prec emax N1 e1 false)
        (binary_normalize prec emax N2 e2 false) = true.
Proof.
  intros H1 He1 He2 Hv.
  assert (Hq1 : 0 < 2 ^ (e1 - e0)) by (apply Z.pow_pos_nonneg; lia).
  assert (Hq2 : 0 < 2 ^ (e2 - e0)) by (apply Z.pow_pos_nonneg; lia).
  destruct N1 as [ | p1 | p1]; try lia.
  - apply normalize_nonneg. nia.
  - destruct N2 as [ | p2 | p2]; try nia.
    cbn [binary_normalize]. apply (@binary_round_mono p1 p2 e1 e2 e0); assumption.
Qed.

Lemma scale_to (m e ez e0 : Z) :
  e0 <= ez -> ez <= e -> m * 2 ^ (e - ez) * 2 ^ (ez - e0) = m * 2 ^ (e - e0).
Proof.
  intros H1 H2. rewrite <- Z.mul_assoc, <- pow_add by lia. f_equal. f_equal. lia.
Qed.

Lemma SFsub_mono (mu mv mk : positive) (eu ev ek : Z) :
  bounded prec emax mu eu = true -> bounded prec emax mv ev = true ->
  bounded prec emax mk ek = true ->
  let u := S754_finite false mu eu in
  let v := S754_finite false mv ev in
  let k := S754_finite false mk ek in
  SFleb k u = true -> SFleb u v = true ->
  SFleb (S754_zero false) (SFsub prec emax u k) = true
  /\ SFleb (SFsub prec emax u k) (SFsub prec emax v k) = true.
Proof.
  intros Vu Vv Vk u v k Hku Huv.
  unfold u, v, k. cbn [SFsub cond_Zopp].
  rewrite !shl_align_fst by lia.
  set (zu := Z.min eu ek). set (zv := Z.min ev ek).
  set (e0 := Z.min zu zv).
  pose proof (@value_order mk mu ek eu zu Vk Vu Hku ltac:(lia) ltac:(lia)) as Hv1.
  pose proof (@value_order mu mv eu ev e0 Vu Vv Huv ltac:(lia) ltac:(lia)) as Hv2.
  split.
  - apply normalize_nonneg. lia.
  - apply (@normalize_mono _ _ _ _ e0); try lia.
    rewrite !Z.mul_sub_distr_r.
    rewrite !scale_to by lia. lia.
Qed.

Lemma SFadd_mono (u v : spec_float) (mk : positive) (ek : Z) :
  SpecFloat.valid_binary prec emax u = true ->
  SpecFloat.valid_binary prec emax v = true ->
  bounded prec emax mk ek = true ->
  nonneg_fin u = true -> nonneg_fin v = true ->
  SFleb u v = true ->
  let k := S754_finite false mk ek in
  SFleb k (SFadd prec emax k u) = true
  /\ SFleb (SFadd prec emax k u) (SFadd prec emax k v) = true.
Proof.
  intros Vu Vv Vk Nu Nv Hle k. unfold k.
  assert (Hk : S754_finite false mk ek
               = binary_normalize prec emax (Zpos mk) ek false)
    by (cbn [binary_normalize]; symmetry; apply binary_round_id; exact Vk).
  assert (Hpow : forall a, 0 <= a -> 0 < 2 ^ a)
    by (intros; apply Z.pow_pos_nonneg; lia).
  assert (Hkv : forall (m : positive) (e : Z),
            SFleb (S754_finite false mk ek)
                  (SFadd prec emax (S754_finite false mk ek) (S754_finite false m e))
            = true).
  { intros m e. cbn [SFadd cond_Zopp]. rewrite !shl_align_fst by lia.
    rewrite Hk at 1.
    apply (@normalize_mono _ _ _ _ (Z.min ek e)); try lia.
    rewrite Z.sub_diag, Z.pow_0_r, Z.mul_1_r.
    pose proof (Hpow (e - Z.min ek e) ltac:(lia)). nia. }
  destruct u as [su | | | [ | ] mu eu]; try discriminate;
  destruct v as [sv | | | [ | ] mv ev]; try discriminate;
  cbn [SpecFloat.valid_binary] in *.
  - cbn [SFadd]. split; apply finite_le_refl.
  - split; [cbn [SFadd]; apply finite_le_refl | ].
    change (SFadd prec emax (S754_finite false mk ek) (S754_zero su))
      with (S754_finite false mk ek).
    apply Hkv.
  - split; [apply Hkv | ].
    cbn [SFadd cond_Zopp]. rewrite !shl_align_fst by lia.
    set (zu := Z.min ek eu). set (zv := Z.min ek ev).
    set (e0 := Z.min zu zv).
    pose proof (@value_order mu mv eu ev e0 Vu Vv Hle ltac:(lia) ltac:(lia)) as Hv2.
    apply (@normalize_mono _ _ _ _ e0); try lia.
    rewrite !Z.mul_add_distr_r. rewrite !scale_to by lia. lia.
Qed.


(** *** Quotients *)

Lemma code_rec (m : Z) (l : location) :
  shr_code (shr_record_of_loc m l) = 4 * m + loc_code l.
Proof. destruct l as [ | [ | | ]]; unfold shr_code; cbn; lia. Qed.

Lemma new_location_spec (D k : Z) :
  0 <= k < D ->
  new_location D k = if k =? 0 then loc_Exact else loc_Inexact (2 * k ?= D).
Proof.
  intros H. unfold new_location, new_location_even, new_location_odd.
  destruct k as [ | p | p]; try lia.
  - destruct (Z.even D); reflexivity.
  - change (Z.pos p =? 0) with false. cbv iota.
    change (IntDef.Z.eqb (Z.pos p) 0) with false. cbv iota.
    destruct (Z.even D) eqn:Hev; [reflexivity | ].
    f_equal.
    assert (Hodd : Z.odd D = true) by (rewrite <- Z.negb_even, Hev; reflexivity).
    apply Z.odd_spec in Hodd. destruct Hodd as [h Hh].
    destruct (Z.compare_spec (2 * Z.pos p + 1) D), (Z.compare_spec (2 * Z.pos p) D);
      try reflexivity; lia.
Qed.

Lemma half_parity (q b : Z) :
  0 <= b <= 1 -> Z.div2 (2 * q + b) = q /\ Z.odd (2 * q + b) = (b =? 1).
Proof.
  intros H. pose proof (Z.div2_odd (2 * q + b)) as Hd.
  destruct (Z.odd (2 * q + b)); cbn [Z.b2z] in Hd;
    destruct (Z.eqb_spec b 1); split; try reflexivity; lia.
Qed.

Lemma qloc_refine (X D : Z) :
  0 <= X -> 0 < D ->
  shr_1 (shr_record_of_loc (fst (qloc (2 * X) D)) (snd (qloc (2 * X) D)))
  = shr_record_of_loc (fst (qloc X D)) (snd (qloc X D)).
Proof.
  intros HX HD. unfold qloc. cbn [fst snd].
  pose proof (Z.div_mod X D ltac:(lia)) as Hdm.
  pose proof (Z.mod_pos_bound X D HD) as Hr.
  pose proof (Z.div_pos X D HX HD) as Hq.
  set (q := X / D) in *. set (r := X mod D) in *.
  assert (Hcase : (2 * r < D /\ (2 * X) / D = 2 * q + 0 /\ (2 * X) mod D = 2 * r)
                  \/ (D <= 2 * r /\ (2 * X) / D = 2 * q + 1
                      /\ (2 * X) mod D = 2 * r - D)).
  { pose proof (Z.div_mod (2 * X) D ltac:(lia)) as Hdm2.
    pose proof (Z.mod_pos_bound (2 * X) D HD) as Hr2.
    destruct (Z_lt_le_dec (2 * r) D) as [Hlt | Hge]; [left | right];
      (split; [assumption | ]).
    - apply (Z.div_mod_unique D); try (left; lia). lia.
    - apply (Z.div_mod_unique D); try (left; lia). lia. }
  rewrite shr_1_nonneg by (rewrite rec_m; apply Z.div_pos; lia).
  rewrite rec_m.
  rewrite (new_location_spec Hr).
  destruct Hcase as [[Hlt [-> ->]] | [Hge [-> ->]]].
  - destruct (@half_parity q 0 ltac:(lia)) as [-> ->].
    rewrite new_location_spec by lia.
    destruct (Z.eqb_spec r 0) as [E | E].
    + destruct (Z.eqb_spec (2 * r) 0); [reflexivity | lia].
    + destruct (Z.eqb_spec (2 * r) 0); [lia | ].
      destruct (Z.compare_spec (2 * r) D); try lia.
      destruct (2 * (2 * r) ?= D); reflexivity.
  - destruct (@half_parity q 1 ltac:(lia)) as [-> ->].
    rewrite new_location_spec by lia.
    destruct (Z.eqb_spec r 0) as [E | E]; [lia | ].
    destruct (Z.compare_spec (2 * r) D); try lia.
    + destruct (Z.eqb_spec (2 * r - D) 0); [reflexivity | lia].
    + destruct (Z.eqb_spec (2 * r - D) 0); [lia | ].
      destruct (2 * (2 * r - D) ?= D); reflexivity.
Qed.

Lemma qloc_mono (X X' D : Z) :
  0 <= X <= X' -> 0 < D ->
  shr_code (shr_record_of_loc (fst (qloc X D)) (snd (qloc X D)))
  <= shr_code (shr_record_of_loc (fst (qloc X' D)) (snd (qloc X' D))).
Proof.
  intros HX HD. rewrite !code_rec. unfold qloc. cbn [fst snd].
  pose proof (Z.div_mod X D ltac:(lia)) as Hdm.
  pose proof (Z.div_mod X' D ltac:(lia)) as Hdm'.
  pose proof (Z.mod_pos_bound X D HD) as Hr.
  pose proof (Z.mod_pos_bound X' D HD) as Hr'.
  pose proof (Z.div_le_mono X X' D HD ltac:(lia)) as Hq.
  rewrite !new_location_spec by assumption.
  set (q := X / D) in *. set (r := X mod D) in *.
  set (q' := X' / D) in *. set (r' := X' mod D) in *.
  assert (Hl : forall l, 0 <= loc_code l <= 3) by (intros [ | [ | | ]]; cbn; lia).
  destruct (Z.eq_dec q q') as [E | E].
  - rewrite <- E in *. assert (Hrr : r <= r') by lia.
    destruct (Z.eqb_spec r 0), (Z.eqb_spec r' 0); try lia;
      destruct (Z.compare_spec (2 * r) D), (Z.compare_spec (2 * r') D);
      cbn [loc_code]; lia.
  - pose proof (Hl (if r =? 0 then loc_Exact else loc_Inexact (2 * r ?= D))).
    pose proof (Hl (if r' =? 0 then loc_Exact else loc_Inexact (2 * r' ?= D))).
    lia.
Qed.

Lemma div_refine (s : bool) (X D e : Z) (j : nat) :
  0 <= X -> 0 < D -> 0 <= shift (X / D) e ->
  bra s (fst (qloc (X * 2 ^ Z.of_nat j) D)) (e - Z.of_nat j)
        (snd (qloc (X * 2 ^ Z.of_nat j) D))
  = bra s (fst (qloc X D)) e (snd (qloc X D)).
Proof.
  intros HX HD Hs. induction j as [ | j IH].
  - rewrite Z.mul_1_r. f_equal. simpl. lia.
  - rewrite <- IH.
    assert (Hp : 0 <= X * 2 ^ Z.of_nat j)
      by (apply Z.mul_nonneg_nonneg; [lia | apply Z.pow_nonneg; lia]).
    assert (Hm2 : X * 2 ^ Z.of_nat (S j) = 2 * (X * 2 ^ Z.of_nat j))
      by (rewrite Nat2Z.inj_succ, Z.pow_succ_r; lia).
    rewrite Hm2.
    assert (Hsj : 0 <= shift (X * 2 ^ Z.of_nat j / D) (e - Z.of_nat j)).
    { destruct (Z_le_gt_dec (e - Z.of_nat j) (SpecFloat.emin prec emax)) as [Hle | Hgt];
        [unfold shift_of; fx | ].
      assert (Hdq : prec <= Zdigits2 (X / D)) by (unfold shift_of in Hs; fx).
      assert (Hqpos : 0 < X / D).
      { destruct (Z.eq_dec (X / D) 0) as [Hz | ];
          [rewrite Hz in Hdq; simpl in Hdq; lia | ].
        pose proof (Z.div_pos X D HX HD). lia. }
      assert (Hlow : X / D * 2 ^ Z.of_nat j <= X * 2 ^ Z.of_nat j / D).
      { apply Z.div_le_lower_bound; [assumption | ].
        rewrite Z.mul_assoc.
        apply Z.mul_le_mono_nonneg_r; [apply Z.pow_nonneg; lia | ].
        apply Z.mul_div_le. assumption. }
      assert (Hdd : Zdigits2 (X / D) + Z.of_nat j
                    <= Zdigits2 (X * 2 ^ Z.of_nat j / D)).
      { rewrite <- digits_scale by assumption. apply digits_mono.
        split; [ | exact Hlow].
        apply Z.mul_nonneg_nonneg; [lia | apply Z.pow_nonneg; lia]. }
      unfold shift_of. fx. }
    pose proof (qloc_refine Hp HD) as Hr.
    rewrite (@bra_refine s (fst (qloc (2 * (X * 2 ^ Z.of_nat j)) D))
               (e - Z.of_nat (S j)) (snd (qloc (2 * (X * 2 ^ Z.of_nat j)) D))).
    + rewrite Hr. rewrite rec_m.
      replace (e - Z.of_nat (S j) + 1) with (e - Z.of_nat j) by lia.
      f_equal. destruct (snd (qloc (X * 2 ^ Z.of_nat j) D)) as [ | [ | | ]]; reflexivity.
    + unfold qloc. cbn [fst]. apply Z.div_pos; lia.
    + rewrite Hr, rec_m.
      replace (e - Z.of_nat (S j) + 1) with (e - Z.of_nat j) by lia.
      exact Hsj.
Qed.

Lemma div_core_spec (m1 m2 : positive) (e1 e2 : Z) :
  let e' := div_scale (Zpos m1) e1 (Zpos m2) e2 in
  let X := Zpos m1 * 2 ^ (e1 - e2 - e') in
  SFdiv_core_binary prec emax (Zpos m1) e1 (Zpos m2) e2
  = (fst (qloc X (Zpos m2)), e', snd (qloc X (Zpos m2))).
Proof.
  intros e' X. unfold SFdiv_core_binary. fold (div_scale (Zpos m1) e1 (Zpos m2) e2).
  fold e'.
  assert (Hs : 0 <= e1 - e2 - e') by (unfold e', div_scale_of; lia).
  assert (HX : match e1 - e2 - e' with
               | Z0 => Zpos m1
               | Zpos _ => Z.shiftl (Zpos m1) (e1 - e2 - e')
               | Zneg _ => 0
               end = X).
  { unfold X. destruct (e1 - e2 - e') as [ | p | p] eqn:E; try lia.
    rewrite Z.shiftl_mul_pow2 by lia. reflexivity. }
  rewrite HX. unfold qloc, Z.div, Z.modulo. cbn [fst snd].
  destruct (Z.div_eucl X (Zpos m2)) as [q r]. reflexivity.
Qed.

Lemma div_shift (m1 m2 : positive) (e1 e2 : Z) :
  let e' := div_scale (Zpos m1) e1 (Zpos m2) e2 in
  let X := Zpos m1 * 2 ^ (e1 - e2 - e') in
  0 <= X /\ 0 <= shift (X / Zpos m2) e'.
Proof.
  intros e' X.
  assert (Hs : 0 <= e1 - e2 - e') by (unfold e', div_scale_of; lia).
  assert (HX : 0 <= X)
    by (apply Z.mul_nonneg_nonneg; [lia | apply Z.pow_nonneg; lia]).
  split; [exact HX | ].
  set (d1 := Zdigits2 (Zpos m1)). set (d2 := Zdigits2 (Zpos m2)).
  set (s := e1 - e2 - e') in *.
  assert (Hq : 0 <= X / Zpos m2) by (apply Z.div_pos; lia).
  assert (Hd : d1 + s - d2 <= Zdigits2 (X / Zpos m2)).
  { pose proof (digits_nonneg (X / Zpos m2)).
    destruct (Z_le_gt_dec (d1 + s - d2) 0) as [Hle | Hgt]; [lia | ].
    assert (Hk : d1 + s - d2 - 1 + 1 <= Zdigits2 (X / Zpos m2)); [ | lia].
    apply digits_ge; [lia | ].
    apply Z.div_le_lower_bound; [lia | ].
    pose proof (@digits_lower (Zpos m1) ltac:(lia)) as Hl1. fold d1 in Hl1.
    pose proof (@digits_upper (Zpos m2) ltac:(lia)) as Hu2. fold d2 in Hu2.
    pose proof (@digits_pos (Zpos m1) ltac:(lia)). fold d1 in H0.
    pose proof (@digits_pos (Zpos m2) ltac:(lia)). fold d2 in H1.
    assert (Hpw : 2 ^ (d1 - 1) * 2 ^ s = 2 ^ d2 * 2 ^ (d1 + s - d2 - 1)).
    { rewrite <- !pow_add by lia. f_equal. lia. }
    assert (0 < 2 ^ s) by (apply Z.pow_pos_nonneg; lia).
    assert (0 < 2 ^ (d1 + s - d2 - 1)) by (apply Z.pow_pos_nonneg; lia).
    unfold X. nia. }
  unfold shift_of. unfold e', div_scale_of in *. fold d1 d2 in Hs |- *.
  unfold s in Hd. unfold e', div_scale_of in Hd. fold d1 d2 in Hd. fx.
Qed.

Lemma SFdiv_mono (u v : spec_float) (mk : positive) (ek : Z) :
  SpecFloat.valid_binary prec emax u = true ->
  SpecFloat.valid_binary prec emax v = true ->
  nonneg_fin u = true -> nonneg_fin v = true ->
  SFleb u v = true ->
  let k := S754_finite false mk ek in
  SFleb (S754_zero false) (SFdiv prec emax u k) = true
  /\ SFleb (SFdiv prec emax u k) (SFdiv prec emax v k) = true.
Proof.
  intros Vu Vv Nu Nv Hle k. unfold k.
  assert (Hfin : forall (m : positive) (e : Z),
            SFdiv prec emax (S754_finite false m e) (S754_finite false mk ek)
            = bra false
                (fst (qloc (Zpos m * 2 ^ (e - ek - div_scale (Zpos m) e (Zpos mk) ek))
                           (Zpos mk)))
                (div_scale (Zpos m) e (Zpos mk) ek)
                (snd (qloc (Zpos m * 2 ^ (e - ek - div_scale (Zpos m) e (Zpos mk) ek))
                           (Zpos mk)))).
  { intros m e. cbn [SFdiv]. rewrite div_core_spec. reflexivity. }
  assert (Hnn : forall (m : positive) (e : Z) s0,
            SFleb (S754_zero s0)
              (SFdiv prec emax (S754_finite false m e) (S754_finite false mk ek))
            = true).
  { intros m e s0. rewrite Hfin.
    destruct (div_shift m mk e ek) as [HX Hs].
    apply bra_nonneg; [ | exact Hs].
    unfold qloc. cbn [fst]. apply Z.div_pos; lia. }
  destruct u as [su | | | [ | ] mu eu]; try discriminate;
  destruct v as [sv | | | [ | ] mv ev]; try discriminate;
  cbn [SpecFloat.valid_binary] in *.
  - cbn [SFdiv]. destruct su, sv; split; reflexivity.
  - split; [cbn [SFdiv]; destruct su; reflexivity | ].
    change (SFdiv prec emax (S754_zero su) (S754_finite false mk ek))
      with (S754_zero (xorb su false)).
    apply Hnn.
  - split; [apply Hnn | ].
    rewrite !Hfin.
    destruct (div_shift mu mk eu ek) as [HXu Hsu].
    destruct (div_shift mv mk ev ek) as [HXv Hsv].
    set (zu := div_scale (Zpos mu) eu (Zpos mk) ek) in *.
    set (zv := div_scale (Zpos mv) ev (Zpos mk) ek) in *.
    assert (Hzu : zu <= eu - ek) by (unfold zu, div_scale_of; lia).
    assert (Hzv : zv <= ev - ek) by (unfold zv, div_scale_of; lia).
    set (ec := Z.min zu zv).
    rewrite <- (@div_refine false _ (Zpos mk) zu (Z.to_nat (zu - ec)) HXu ltac:(lia) Hsu).
    rewrite <- (@div_refine false _ (Zpos mk) zv (Z.to_nat (zv - ec)) HXv ltac:(lia) Hsv).
    rewrite !Z2Nat.id by lia.
    replace (zu - (zu - ec)) with ec by lia.
    replace (zv - (zv - ec)) with ec by lia.
    rewrite <- !Z.mul_assoc, <- !pow_add by lia.
    replace (eu - ek - zu + (zu - ec)) with (eu - (ek + ec)) by lia.
    replace (ev - ek - zv + (zv - ec)) with (ev - (ek + ec)) by lia.
    pose proof (@value_order mu mv eu ev (ek + ec) Vu Vv Hle
                  ltac:(lia) ltac:(lia)) as Hv.
    assert (Hpu : 0 <= Zpos mu * 2 ^ (eu - (ek + ec)))
      by (apply Z.mul_nonneg_nonneg; [lia | apply Z.pow_nonneg; lia]).
    apply bra_mono.
    + unfold qloc. cbn [fst]. apply Z.div_pos; lia.
    + assert (Hsc : 0 <= shift (fst (qloc (Zpos mu * 2 ^ (eu - ek - zu)) (Zpos mk))) zu)
        by exact Hsu.
      (* the refinement keeps the shift non-negative *)
      destruct (Z_le_gt_dec ec (SpecFloat.emin prec emax)) as [Hle' | Hgt];
        [unfold shift_of; fx | ].
      unfold qloc in *. cbn [fst] in *.
      set (X := Zpos mu * 2 ^ (eu - ek - zu)) in *.
      assert (Hdq : prec <= Zdigits2 (X / Zpos mk)) by (unfold shift_of in Hsc; fx).
      assert (Hqpos : 0 < X / Zpos mk).
      { destruct (Z.eq_dec (X / Zpos mk) 0) as [Hz | ];
          [rewrite Hz in Hdq; simpl in Hdq; lia | ].
        pose proof (Z.div_pos X (Zpos mk) HXu ltac:(lia)). lia. }
      assert (HXX : Zpos mu * 2 ^ (eu - (ek + ec)) = X * 2 ^ (zu - ec)).
      { unfold X. rewrite <- Z.mul_assoc, <- pow_add by lia. f_equal. f_equal. lia. }
      rewrite HXX.
      assert (Hlow : X / Zpos mk * 2 ^ (zu - ec) <= X * 2 ^ (zu - ec) / Zpos mk).
      { apply Z.div_le_lower_bound; [lia | ].
        rewrite Z.mul_assoc.
        apply Z.mul_le_mono_nonneg_r; [apply Z.pow_nonneg; lia | ].
        apply Z.mul_div_le. lia. }
      assert (Hdd : Zdigits2 (X / Zpos mk) + (zu - ec)
                    <= Zdigits2 (X * 2 ^ (zu - ec) / Zpos mk)).
      { replace (zu - ec) with (Z.of_nat (Z.to_nat (zu - ec))) in * by lia.
        rewrite <- digits_scale by assumption. apply digits_mono.
        split; [ | exact Hlow].
        apply Z.mul_nonneg_nonneg; [lia | apply Z.pow_nonneg; lia]. }
      unfold shift_of. fx.
    + apply qloc_mono; lia.
Qed.

End Rounding.

(** ** Binary64: the order of computed results

    Sums, differences, products and quotients of binary64 rise with
    their operands, as rounding to nearest does; from the library's
    specification of the four operations. *)

Section Binary64.

Local Open Scope float_scope.

Lemma prec_pos : (0 < prec)%Z. Proof. reflexivity. Qed.
Lemma emax_large : (3 <= emax + prec)%Z. Proof. discriminate. Qed.

Lemma SFltb_leb (a b : spec_float) : SFltb a b = true -> SFleb a b = true.
Proof.
  unfold SFltb, SFleb. destruct (SFcompare a b) as [[ | | ] | ]; congruence.
Qed.

Lemma SFeqb_leb (a b : spec_float) : SFeqb a b = true -> SFleb a b = true.
Proof.
  unfold SFeqb, SFleb. destruct (SFcompare a b) as [[ | | ] | ]; congruence.
Qed.

Lemma float_leb_trans (a b c : float) :
  (a <=? b) = true -> (b <=? c) = true -> (a <=? c) = true.
Proof. rewrite !leb_spec. apply SFleb_trans. Qed.

Lemma float_ltb_leb_trans (a b c : float) :
  (a <? b) = true -> (b <=? c) = true -> (a <? c) = true.
Proof. rewrite !ltb_spec, leb_spec. apply SFltb_leb_trans. Qed.

Lemma float_leb_ltb_trans (a b c : float) :
  (a <=? b) = true -> (b <? c) = true -> (a <? c) = true.
Proof. rewrite !ltb_spec, leb_spec. apply SFleb_ltb_trans. Qed.

Lemma float_ltb_leb (a b : float) : (a <? b) = true -> (a <=? b) = true.
Proof. rewrite ltb_spec, leb_spec. apply SFltb_leb. Qed.

Lemma float_eqb_leb (a b : float) : (a =? b) = true -> (a <=? b) = true.
Proof. rewrite eqb_spec, leb_spec. apply SFeqb_leb. Qed.

Lemma posf_spec (x : float) :
  posf x = true ->
  exists m e, Prim2SF x = S754_finite false m e /\ bounded prec emax m e = true.
Proof.
  unfold posf. pose proof (Prim2SF_valid x) as V.
  destruct (Prim2SF x) as [ | | | [ | ] m e]; try discriminate.
  intros _. exists m, e. split; [reflexivity | exact V].
Qed.

Lemma posf_nnf (x : float) : posf x = true -> nnf x = true.
Proof.
  unfold posf, nnf. destruct (Prim2SF x) as [ | | | [ | ] m e]; try discriminate.
  reflexivity.
Qed.

Lemma between_nnf (r c : float) :
  (0 <=? r) = true -> (r <=? c) = true -> nnf c = true -> nnf r = true.
Proof.
  rewrite !leb_spec. unfold nnf. change (Prim2SF 0) with (S754_zero false).
  destruct (Prim2SF r) as [ [ | ] | [ | ] | | [ | ] m e],
           (Prim2SF c) as [ [ | ] | [ | ] | | [ | ] m' e']; cbn; congruence.
Qed.

Lemma between_posf (a r c : float) :
  posf a = true -> posf c = true ->
  (a <? r) = true -> (r <=? c) = true -> posf r = true.
Proof.
  rewrite ltb_spec, leb_spec. unfold posf.
  destruct (Prim2SF a) as [ [ | ] | [ | ] | | [ | ] m e]; try discriminate.
  destruct (Prim2SF c) as [ [ | ] | [ | ] | | [ | ] m' e']; try discriminate.
  destruct (Prim2SF r) as [ [ | ] | [ | ] | | [ | ] m'' e'']; cbn; congruence.
Qed.

Lemma float_sub_mono (u v k : float) :
  posf k = true -> posf v = true ->
  (k <? u) = true -> (u <=? v) = true ->
  (0 <=? u - k) = true /\ (u - k <=? v - k) = true.
Proof.
  intros Hk Hv Hku Huv.
  pose proof (@between_posf k u v Hk Hv Hku Huv) as Hu.
  apply float_ltb_leb in Hku.
  rewrite leb_spec in Hku, Huv. rewrite !leb_spec, !sub_spec.
  destruct (posf_spec k Hk) as [mk [ek [Ek Vk]]].
  destruct (posf_spec v Hv) as [mv [ev [Ev Vv]]].
  destruct (posf_spec u Hu) as [mu [eu [Eu Vu]]].
  rewrite Ek, Eu, Ev in *.
  change (Prim2SF 0) with (S754_zero false).
  exact (@SFsub_mono prec emax prec_pos mu mv mk eu ev ek Vu Vv Vk Hku Huv).
Qed.

Lemma float_mul_mono (u v k : float) :
  posf k = true -> nnf u = true -> nnf v = true -> (u <=? v) = true ->
  (0 <=? u * k) = true /\ (u * k <=? v * k) = true.
Proof.
  intros Hk Hu Hv Huv. rewrite leb_spec in Huv. rewrite !leb_spec, !mul_spec.
  destruct (posf_spec k Hk) as [mk [ek [Ek Vk]]]. rewrite Ek.
  change (Prim2SF 0) with (S754_zero false).
  exact (@SFmul_mono prec emax prec_pos emax_large _ _ mk ek
           (Prim2SF_valid u) (Prim2SF_valid v) Vk Hu Hv Huv).
Qed.

Lemma float_div_mono (u v k : float) :
  posf k = true -> nnf u = true -> nnf v = true -> (u <=? v) = true ->
  (0 <=? u / k) = true /\ (u / k <=? v / k) = true.
Proof.
  intros Hk Hu Hv Huv. rewrite leb_spec in Huv. rewrite !leb_spec, !div_spec.
  destruct (posf_spec k Hk) as [mk [ek [Ek Vk]]]. rewrite Ek.
  change (Prim2SF 0) with (S754_zero false).
  exact (@SFdiv_mono prec emax prec_pos _ _ mk ek
           (Prim2SF_valid u) (Prim2SF_valid v) Hu Hv Huv).
Qed.

Lemma float_add_mono (u v k : float) :
  posf k = true -> nnf u = true -> nnf v = true -> (u <=? v) = true ->
  (k <=? k + u) = true /\ (k + u <=? k + v) = true.
Proof.
  intros Hk Hu Hv Huv. rewrite leb_spec in Huv. rewrite !leb_spec, !add_spec.
  destruct (posf_spec k Hk) as [mk [ek [Ek Vk]]]. rewrite Ek.
  exact (@SFadd_mono prec emax prec_pos _ _ mk ek
           (Prim2SF_valid u) (Prim2SF_valid v) Vk Hu Hv Huv).
Qed.

(** Line 110 on binary64: between two rows the interpolation does not
    go below x1 and does not fall as the target rises. *)
Lemma interpolate_rises (y y' x1 y1 x2 y2 : float) :
  chain_ok x1 y1 x2 y2 = true ->
  (y1 <? y) = true -> (y <=? y') = true -> (y' <=? y2) = true ->
  (x1 <=? interpolate y x1 y1 x2 y2) = true
  /\ (interpolate y x1 y1 x2 y2 <=? interpolate y' x1 y1 x2 y2) = true.
Proof.
  unfold chain_ok.
  change (interpolate y x1 y1 x2 y2) with (x1 + (y - y1) * (x2 - x1) / (y2 - y1)).
  change (interpolate y' x1 y1 x2 y2) with (x1 + (y' - y1) * (x2 - x1) / (y2 - y1)).
  intros Hok H1 H2 H3.
  repeat (apply andb_true_iff in Hok; destruct Hok as [Hok ?]).
  rename Hok into Hx1, H into HC, H0 into HB, H4 into Hdy, H5 into Hdx,
         H6 into Hy2, H7 into Hy1.
  pose proof (@float_ltb_leb_trans _ _ _ H1 H2) as H1'.
  pose proof (@between_posf y1 y' y2 Hy1 Hy2 H1' H3) as Hy'.
  destruct (@float_sub_mono y y' y1 Hy1 Hy' H1 H2) as [Ha0 Ha].
  destruct (@float_sub_mono y' y2 y1 Hy1 Hy2 H1' H3) as [Ha0' Ha'].
  pose proof (@between_nnf _ _ Ha0' Ha' (@posf_nnf _ Hdy)) as Na'.
  pose proof (@between_nnf _ _ Ha0 Ha Na') as Na.
  destruct (@float_mul_mono _ _ (x2 - x1) Hdx Na Na' Ha) as [Hb0 Hb].
  destruct (@float_mul_mono _ _ (x2 - x1) Hdx Na' (@posf_nnf _ Hdy) Ha') as [Hb0' Hb'].
  pose proof (@between_nnf _ _ Hb0' Hb' HB) as Nb'.
  pose proof (@between_nnf _ _ Hb0 Hb Nb') as Nb.
  destruct (@float_div_mono _ _ (y2 - y1) Hdy Nb Nb' Hb) as [Hc0 Hc].
  destruct (@float_div_mono _ _ (y2 - y1) Hdy Nb' HB Hb') as [Hc0' Hc'].
  pose proof (@between_nnf _ _ Hc0' Hc' HC) as Nc'.
  pose proof (@between_nnf _ _ Hc0 Hc Nc') as Nc.
  exact (@float_add_mono _ _ x1 Hx1 Nc Nc' Hc).
Qed.

(** *** Tables that pass the check *)

Local Notation d0 := (@lit float float_Num 0%Q).

Lemma rows_ok_nth (lo hi : float) (tab : list (float * float)) (d : float * float) :
  rows_ok lo hi tab = true ->
  forall i, (S i < length tab)%nat ->
    row_ok lo hi (nth i tab d) (nth (S i) tab d) = true.
Proof.
  induction tab as [ | a l IH]; intros Hok i Hi; [simpl in Hi; lia | ].
  destruct l as [ | b l]; [simpl in Hi; lia | ].
  change (rows_ok lo hi (a :: b :: l))
    with (row_ok lo hi a b && rows_ok lo hi (b :: l)) in Hok.
  apply andb_prop in Hok. destruct Hok as [Hab Hrest].
  destruct i as [ | i].
  - exact Hab.
  - change (row_ok lo hi (nth i (b :: l) d) (nth (S i) (b :: l) d) = true).
    apply IH; [exact Hrest | simpl in *; lia].
Qed.

Lemma forallb_nth {T : Type} (f : T -> bool) (l : list T) (d : T) (i : nat) :
  forallb f l = true -> (i < length l)%nat -> f (nth i l d) = true.
Proof.
  intros H Hi. rewrite forallb_forall in H. apply H. apply nth_In. exact Hi.
Qed.

Lemma x_eq_nth (c : config float) (i : nat) :
  nth i (x_eq c) d0 = fst (nth i (equilibrium_data c) (d0, d0)).
Proof. unfold x_eq. change d0 with (fst (d0, d0)) at 1. apply map_nth. Qed.

Lemma y_eq_nth (c : config float) (i : nat) :
  nth i (y_eq c) d0 = snd (nth i (equilibrium_data c) (d0, d0)).
Proof. unfold y_eq. change d0 with (snd (d0, d0)) at 1. apply map_nth. Qed.

Lemma incomparable_with_itself (y v : float) :
  (y =? y) = false -> (v <? y) = false /\ (y <? v) = false.
Proof.
  rewrite eqb_spec, !ltb_spec. intros H. apply SFeqb_self_cases in H.
  rewrite H. unfold SFltb, SFcompare. split; [ | reflexivity].
  destruct (Prim2SF v); reflexivity.
Qed.

(** On a table that passes the check, the inversion stays within the
    table for every target. *)
Lemma checked_table_inversion (c : config float) (y : float) :
  equilibrium_data c <> [] ->
  table_checked (equilibrium_data c) = true ->
  exists x,
    binary_search_interpolate y (x_eq c) (y_eq c) = Ok x
    /\ within (nth 0 (x_eq c) d0) (nth (length (x_eq c) - 1) (x_eq c) d0) x = true.
Proof.
  intros Hne Hok.
  pose proof (@y_eq_nonempty float c Hne) as Hys.
  pose proof (x_eq_y_eq_length c) as Hlen.
  pose proof (rows_positive Hys) as Hpos.
  assert (Hlx : length (x_eq c) = length (equilibrium_data c))
    by (unfold x_eq; apply length_map).
  unfold table_checked in Hok.
  apply andb_prop in Hok. destruct Hok as [Hok Hrows].
  apply andb_prop in Hok. destruct Hok as [Hasc Hall].
  fold (x_eq c) in Hall, Hrows. fold (y_eq c) in Hasc.
  rewrite <- Hlx in Hall, Hrows.
  set (lo := nth 0 (x_eq c) d0) in *.
  set (hi := nth (length (x_eq c) - 1) (x_eq c) d0) in *.
  assert (Hrow : forall i, (i < length (y_eq c))%nat ->
            within lo hi (nth i (x_eq c) d0) = true
            /\ (nth i (y_eq c) d0 =? nth i (y_eq c) d0) = true).
  { intros i Hi.
    pose proof (@forallb_nth _ _ (equilibrium_data c) (d0, d0) i Hall ltac:(lia)) as H.
    apply andb_prop in H. rewrite x_eq_nth, y_eq_nth. exact H. }
  destruct (y =? y) eqn:Hyy.
  - pose proof (@inversion_tabulated float float_Num float_NumOrder (x_eq c) (y_eq c) y Hlen Hasc) as Htab.
    pose proof (@inversion_below float float_Num float_NumOrder (x_eq c) (y_eq c) y Hlen Hasc Hys) as Hbel.
    pose proof (@inversion_above float float_Num float_NumOrder (x_eq c) (y_eq c) y Hlen Hasc Hys) as Habo.
    pose proof (@inversion_between float float_Num float_NumOrder (x_eq c) (y_eq c) y Hlen Hasc) as Hbet.
    destruct (@target_cases float float_Num float_NumOrder (y_eq c) y Hys Hyy (fun i Hi => proj2 (Hrow i Hi)))
      as [[i [Hi Heq]] | [Hlo | [Hhi | [i [Hi [H1 H2]]]]]].
    + exists (nth i (x_eq c) d0). split; [apply Htab; assumption | ].
      apply Hrow. exact Hi.
    + exists (nth 0 (x_eq c) d0). split; [apply Hbel; assumption | ].
      apply Hrow. lia.
    + exists (nth (length (y_eq c) - 1) (x_eq c) d0).
      split; [apply Habo; assumption | ]. apply Hrow. lia.
    + eexists. split; [apply (Hbet i); assumption | ].
      pose proof (@rows_ok_nth lo hi (equilibrium_data c) (d0, d0) Hrows i ltac:(lia))
        as Hr.
      unfold row_ok in Hr. rewrite <- !x_eq_nth, <- !y_eq_nth in Hr.
      apply andb_prop in Hr. destruct Hr as [Hr Hup].
      apply andb_prop in Hr. destruct Hr as [Hchain Hlow].
      assert (H22 : (nth (S i) (y_eq c) d0 <=? nth (S i) (y_eq c) d0) = true)
        by (apply float_eqb_leb; apply Hrow; lia).
      destruct (@interpolate_rises y (nth (S i) (y_eq c) d0)
                  (nth i (x_eq c) d0) (nth i (y_eq c) d0)
                  (nth (S i) (x_eq c) d0) (nth (S i) (y_eq c) d0)
                  Hchain H1 (@float_ltb_leb _ _ H2) H22) as [Hge Hle].
      unfold within. apply andb_true_intro. split.
      * exact (@float_leb_trans _ _ _ Hlow Hge).
      * exact (@float_leb_trans _ _ _ Hle Hup).
  - exists (nth ((length (y_eq c) - 1) / 2) (x_eq c) d0). split.
    + apply inversion_of_incomparable; try assumption.
      intros v _. apply incomparable_with_itself. exact Hyy.
    + apply Hrow.
      pose proof (Nat.Div0.div_le_upper_bound (length (y_eq c) - 1) 2 (length (y_eq c) - 1)).
      assert ((length (y_eq c) - 1) / 2 <= length (y_eq c) - 1)%nat
        by (apply Nat.Div0.div_le_upper_bound; lia).
      lia.
Qed.

End Binary64.

(** ** The inversion, on every ordered instance *)

Section Claims_ordered.

Context {A : Type} {NA : Num A} {OA : NumOrder A}.
Local Open Scope num_scope.

(** C3.  On a table whose y column ascends, the inversion returns the
    tabulated x of a row whose y equals the target; the first x for a
    target below the first y; the last x for a target above the last y;
    and for a target strictly between the y of two neighbouring rows
    (x1, y1) and (x2, y2) the linear interpolation
    [x1 + (y - y1) * (x2 - x1) / (y2 - y1)].  A target that is equal to
    itself (on binary64: not NaN), against rows that are, is in one of
    these four cases. *)
Theorem C3_equilibrium_inversion (c : config A) (y : A) :
  equilibrium_data c <> [] ->
  ascending (y_eq c) = true ->
  let xs := x_eq c in
  let ys := y_eq c in
  let last := (length ys - 1)%nat in
  let x_ i := nth i xs (lit 0) in
  let y_ i := nth i ys (lit 0) in
  let found := binary_search_interpolate y xs ys in
  (forall i, (i < length ys)%nat -> (y_ i =? y) = true -> found = Ok (x_ i))
  /\ ((y <? y_ O) = true -> found = Ok (x_ O))
  /\ ((y_ last <? y) = true -> found = Ok (x_ last))
  /\ (forall i, (S i < length ys)%nat ->
       (y_ i <? y) = true -> (y <? y_ (S i)) = true ->
       found = Ok (x_ i + (y - y_ i) * (x_ (S i) - x_ i) / (y_ (S i) - y_ i)))
  /\ ((y =? y) = true ->
      (forall i, (i < length ys)%nat -> (y_ i =? y_ i) = true) ->
      (exists i, (i < length ys)%nat /\ (y_ i =? y) = true)
      \/ (y <? y_ O) = true
      \/ (y_ last <? y) = true
      \/ (exists i, (S i < length ys)%nat
            /\ (y_ i <? y) = true /\ (y <? y_ (S i)) = true)).
Proof.
  intros Hne Hs. cbv zeta.
  pose proof (x_eq_y_eq_length c) as Hlen.
  pose proof (@y_eq_nonempty A c Hne) as Hys.
  split; [intros i; apply inversion_tabulated; assumption | ].
  split; [apply inversion_below; assumption | ].
  split; [apply inversion_above; assumption | ].
  split; [intros i; apply inversion_between; assumption | ].
  apply target_cases; assumption.
Qed.

End Claims_ordered.

(** ** Claims proved in exact arithmetic *)

Section Claims_Q.

Local Open Scope Q_scope.

(** On rationals the test of line 122 fails exactly when
    [current_x <= xiF]. *)
Lemma operating_y_by_phase (l : lines Q) (x : Q) :
  (xiF l < x -> operating_y l x = rectifying_y l x)
  /\ (x <= xiF l -> operating_y l x = stripping_y l x).
Proof.
  unfold operating_y. simpl. split; intros H.
  - apply Qltb_true in H. rewrite H. reflexivity.
  - apply Qltb_false in H. rewrite H. reflexivity.
Qed.

(** The stripping formula of line 125 is the line through (xW, xW) and
    (xiF, yiF), the one [stripping_line] draws. *)
Lemma stripping_y_through_points (l : lines Q) :
  ~ xiF l == xW (cfg l) ->
  stripping_y l (xW (cfg l)) == xW (cfg l)
  /\ stripping_y l (xiF l) == yiF l
  /\ forall x,
       stripping_y l x
       == (yiF l - xW (cfg l)) / (xiF l - xW (cfg l)) * x
          + (xW (cfg l)
             - (yiF l - xW (cfg l)) / (xiF l - xW (cfg l)) * xW (cfg l)).
Proof.
  intros Hne. unfold stripping_y. simpl.
  assert (Hd : ~ xiF l - xW (cfg l) == 0) by (intros H; apply Hne; lra).
  repeat split; try intros x; field; exact Hd.
Qed.

Lemma linspace_nth (start stop d : Q) (num i : nat) :
  (i < num)%nat ->
  nth i (linspace start stop num) d
  = if (1 <? num)%nat && (S i =? num)%nat then stop
    else inject_Z (Z.of_nat i) * ((stop - start) / inject_Z (Z.of_nat num - 1))
         + start.
Proof.
  intros Hi. unfold linspace.
  set (f := fun i0 : nat => if (1 <? num)%nat && (S i0 =? num)%nat then stop
                 else (lit (inject_Z (Z.of_nat i0))
                       * ((stop - start) / lit (inject_Z (Z.of_nat num - 1)))
                       + start)%num).
  rewrite (nth_indep (map f (seq 0 num)) d (f O))
    by (rewrite length_map, length_seq; exact Hi).
  rewrite map_nth, seq_nth by exact Hi.
  reflexivity.
Qed.

(** C8.  For q equal to 1 the feed line is the two points (xF, 0) and
    (xF, 1).  For any other q it is 100 points whose x run from 0 to 1 in
    steps of 1/99 and whose y is [q/(q-1) * x + (-xF/(q-1))]. *)
Theorem C8_feed_line (xf qv : Q) :
  (qv == 1 -> feed_line xf qv = ([xf; xf], [0; 1]))
  /\ (~ qv == 1 ->
      let x_feed := fst (feed_line xf qv) in
      let y_feed := snd (feed_line xf qv) in
      length x_feed = 100%nat /\ length y_feed = 100%nat
      /\ nth 0 x_feed 0 == 0 /\ nth 99 x_feed 0 == 1
      /\ forall i, (i < 100)%nat ->
           nth i x_feed 0 == inject_Z (Z.of_nat i) / 99
           /\ nth i y_feed 0
              = qv / (qv - 1) * nth i x_feed 0 + (- xf) / (qv - 1)).
Proof.
  split.
  - intros Hq.
    assert (Hb : (qv =? lit 1)%num = true) by (apply Qeq_bool_iff; exact Hq).
    exact (feed_line_vertical xf qv Hb).
  - intros Hq.
    assert (Hb : (qv =? lit 1)%num = false).
    { simpl. destruct (Qeq_bool qv 1) eqn:E; [ | reflexivity].
      apply Qeq_bool_iff in E. contradiction. }
    rewrite (feed_line_sloped xf qv Hb). cbv zeta. cbn [fst snd].
    assert (Hx : forall i, (i < 100)%nat ->
               nth i (linspace (lit 0) (lit 1) 100) 0 == inject_Z (Z.of_nat i) / 99).
    { intros i Hi. rewrite (linspace_nth _ _ _ Hi). simpl lit.
      destruct (Nat.eqb_spec (S i) 100) as [E | E]; simpl.
      - assert (i = 99%nat) by lia. subst i. reflexivity.
      - change (inject_Z (Z.of_nat 100 - 1)) with 99. field. }
    assert (Hlenx : length (linspace (A:=Q) (lit 0) (lit 1) 100) = 100%nat).
    { unfold linspace. rewrite length_map, length_seq. reflexivity. }
    split; [exact Hlenx | ].
    split; [rewrite length_map; exact Hlenx | ].
    split; [rewrite (Hx 0%nat) by lia; reflexivity | ].
    split; [rewrite (Hx 99%nat) by lia; reflexivity | ].
    intros i Hi. split.
    + apply Hx. assumption.
    + set (f := fun x : Q => (qv / (qv - lit 1) * x + - xf / (qv - lit 1))%num).
      rewrite (nth_indep (map f (linspace (lit 0) (lit 1) 100)) 0 (f 0))
        by (rewrite length_map, Hlenx; assumption).
      rewrite map_nth. reflexivity.
Qed.

End Claims_Q.

(** ** The default configuration, run on binary64 and on exact rationals *)

Section Claims_default.

Local Open Scope num_scope.

(** C1, as the specification states it, fails on the default
    configuration: the lookup returns a point, and it is not (0.4, 0.63);
    R_min is not within 0.01 of 1.52 and R is not within 0.01 of 2.28. *)
Lemma C1_stated_values_refuted :
  exists g : globals float,
    assign_lines default_config blank_globals = Ok g
    /\ (g_xiE g =? lit 0.4) = false
    /\ (g_yiE g =? lit 0.63) = false
    /\ near (g_R_min g) (lit 1.52) (lit 0.01) = false
    /\ near (g_R g) (lit 2.28) (lit 0.01) = false.
Proof.
  eexists. split; [vm_compute; reflexivity | ].
  repeat split; vm_compute; reflexivity.
Qed.

(** C1, amended.  On the default configuration the lookup selects the
    first tabulated point with y > 0.4, which is (0.3, 0.52); R_min is
    (0.98 - 0.52) / (0.52 - 0.3), within 0.01 of 2.09 (exactly 23/11 on
    rationals), and R is 1.5 times R_min, within 0.01 of 3.14 (exactly
    69/22). *)
Theorem C1_default_minimum_reflux :
  (exists g : globals float,
     assign_lines default_config blank_globals = Ok g
     /\ find (fun p => snd p >? xF default_config)
             (equilibrium_data default_config) = Some (g_xiE g, g_yiE g)
     /\ g_xiE g = lit 0.3 /\ g_yiE g = lit 0.52
     /\ g_R_min g = (lit 0.98 - lit 0.52) / (lit 0.52 - lit 0.3)
     /\ near (g_R_min g) (lit 2.09) (lit 0.01) = true
     /\ g_R g = lit 1.5 * g_R_min g
     /\ near (g_R g) (lit 3.14) (lit 0.01) = true)
  /\ (exists g : globals Q,
        assign_lines default_config blank_globals = Ok g
        /\ find (fun p => snd p >? xF default_config)
                (equilibrium_data default_config) = Some (g_xiE g, g_yiE g)
        /\ g_xiE g = lit 0.3 /\ g_yiE g = lit 0.52
        /\ g_R_min g = (lit 0.98 - lit 0.52) / (lit 0.52 - lit 0.3)
        /\ (g_R_min g == 23 # 11)%Q
        /\ g_R g = lit 1.5 * g_R_min g
        /\ (g_R g == 69 # 22)%Q).
Proof.
  split.
  - eexists. split; [vm_compute; reflexivity | ].
    repeat split; vm_compute; reflexivity.
  - eexists. split; [vm_compute; reflexivity | ].
    repeat split; vm_compute; reflexivity.
Qed.

(** C2.  In the run on the default configuration, which takes ten
    iterations, each next_x is at most the current_x it replaces, and the
    current_x of the iterations, in order, never go up. *)
Theorem C2_default_run_descends :
  (exists g : globals float,
     stage_design default_config blank_globals = Ok g
     /\ let ss := steps (stages (g_loop g)) in
        length ss = 10%nat
        /\ forallb (fun s => PrimFloat.leb (fst (snd s)) (fst (fst s))) ss = true
        /\ non_increasing PrimFloat.leb (map (fun s => fst (fst s)) ss) = true)
  /\ (exists g : globals Q,
        stage_design default_config blank_globals = Ok g
        /\ let ss := steps (stages (g_loop g)) in
           length ss = 10%nat
           /\ forallb (fun s => Qle_bool (fst (snd s)) (fst (fst s))) ss = true
           /\ non_increasing Qle_bool (map (fun s => fst (fst s)) ss) = true).
Proof.
  split.
  - eexists. split; [vm_compute; reflexivity | ].
    cbv zeta. repeat split; vm_compute; reflexivity.
  - eexists. split; [vm_compute; reflexivity | ].
    cbv zeta. repeat split; vm_compute; reflexivity.
Qed.

(** C4, evaluated.  On the default configuration the script records 20
    points and prints 10 stages (20 // 2) and feed stage 11: the count of
    line 180 runs over both points of every iteration, 6 operating-line
    points and 5 equilibrium points with x > xiF.  The printed feed stage
    is above the printed number of stages. *)
Theorem C4_default_feed_stage_above_stage_count :
  (exists (g : globals float) (r : report float),
     script default_config blank_globals = Ok (g, r)
     /\ length (stages (g_loop g)) = 20%nat
     /\ rep_stages r = (Z.of_nat (length (stages (g_loop g))) / 2)%Z
     /\ rep_stages r = 10%Z
     /\ rep_feed_stage r
        = length (filter (fun s => fst s >? g_xiF g) (stages (g_loop g)))
     /\ rep_feed_stage r = 11%nat
     /\ length (filter (fun s => fst (fst s) >? g_xiF g)
                       (steps (stages (g_loop g)))) = 6%nat
     /\ length (filter (fun s => fst (snd s) >? g_xiF g)
                       (steps (stages (g_loop g)))) = 5%nat
     /\ (Z.of_nat (rep_feed_stage r) <=? rep_stages r)%Z = false)
  /\ (exists g : globals Q,
        stage_design default_config blank_globals = Ok g
        /\ number_of_stages g = 10%Z
        /\ feed_stage g = 11%nat).
Proof.
  split.
  - do 2 eexists. split; [vm_compute; reflexivity | ].
    repeat split; vm_compute; reflexivity.
  - eexists. split; [vm_compute; reflexivity | ].
    repeat split; vm_compute; reflexivity.
Qed.

(** The cap is reachable: on [config_oscillating], whose table the spline
    accepts, the stepper alternates between 0.1 and 0.9, the loop stops
    after 1000 iterations, the warning is printed and the 2000 points are
    reported as 1000 stages, with feed stage 2000. *)
Lemma cap_reached_when_oscillating :
  exists (g : globals float) (r : report float),
    script config_oscillating blank_globals = Ok (g, r)
    /\ iteration_count (g_loop g) = 1000%Z
    /\ rep_warning r = true
    /\ length (stages (g_loop g)) = 2000%nat
    /\ rep_stages r = 1000%Z
    /\ rep_feed_stage r = 2000%nat.
Proof.
  do 2 eexists. split; [vm_compute; reflexivity | ].
  repeat split; vm_compute; reflexivity.
Qed.

(** The two exceptions outside the stage design.  A table whose x column
    does not rise stops the script at the spline of line 33, though the
    stage design alone would run on it; a vapor velocity of zero stops it
    at the division of line 147, after the stage design has finished. *)
Lemma script_stops_outside_the_stage_design :
  script (A:=float) config_descending_table blank_globals = Err ValueError
  /\ (exists g, stage_design (A:=float) config_descending_table blank_globals = Ok g)
  /\ script (A:=float) config_still_vapor blank_globals = Err ZeroDivisionError
  /\ (exists g, stage_design (A:=float) config_still_vapor blank_globals = Ok g).
Proof.
  split; [vm_compute; reflexivity | ].
  split; [eexists; vm_compute; reflexivity | ].
  split; [vm_compute; reflexivity | ].
  eexists; vm_compute; reflexivity.
Qed.

(** On binary64 a NaN target fails both comparisons of lines 95 and 97
    and leaves the search through the exact-match return, at the middle
    row. *)
Lemma nan_target_takes_exact_match_return :
  binary_search_interpolate (A:=float) PrimFloat.nan
    (x_eq default_config) (y_eq default_config) = Ok (lit 0.5).
Proof. vm_compute. reflexivity. Qed.

(** On binary64 the inversion clamps infinite targets to the ends of the
    table, returns the tabulated x at a tabulated y, and just below the
    last tabulated y stays within the table. *)
Lemma inversion_at_binary64_extremes :
  map (fun y => binary_search_interpolate (A:=float) y
                  (x_eq default_config) (y_eq default_config))
      [PrimFloat.neg_infinity; PrimFloat.infinity; lit 0.63]
  = [Ok (lit 0.1); Ok (lit 0.9); Ok (lit 0.4)]
  /\ match binary_search_interpolate (A:=float) (PrimFloat.next_down (lit 0.96))
            (x_eq default_config) (y_eq default_config) with
     | Ok x => PrimFloat.ltb (lit 0.8) x && PrimFloat.leb x (lit 0.9)
     | _ => false
     end = true.
Proof. split; vm_compute; reflexivity. Qed.

(** The decimal literals are the doubles Python reads. *)
Lemma literals_are_nearest_doubles :
  map (lit (A:=float)) [0.4; 0.98; 0.02; 1.5; 1e-4; 0.63; 3.141592653589793]%Q
  = [0.4; 0.98; 0.02; 1.5; 1e-4; 0.63; 3.141592653589793]%float.
Proof. reflexivity. Qed.

End Claims_default.

(** ** The inversion on binary64 *)

Section Claims_binary64.

Local Open Scope float_scope.

(** C10.  On binary64, with the table of the script, the inversion
    returns a value for every target (NaN and the infinities included),
    and the value lies in the closed interval from [x_eq[0]] to
    [x_eq[-1]], that is from 0.1 to 0.9: the interpolation of line 110,
    rounded as the script computes it, never leaves the tabulated
    x-range. *)
Theorem C10_inversion_within_table (y : float) :
  exists x lo hi,
    binary_search_interpolate y (x_eq default_config) (y_eq default_config) = Ok x
    /\ zindex (x_eq default_config) 0 = Ok lo
    /\ zindex (x_eq default_config) (-1) = Ok hi
    /\ lo = lit 0.1%Q /\ hi = lit 0.9%Q
    /\ (lo <=? x) = true /\ (x <=? hi) = true.
Proof.
  destruct (@checked_table_inversion default_config y ltac:(discriminate)
              ltac:(vm_compute; reflexivity)) as [x [Hx Hw]].
  exists x, (lit 0.1%Q), (lit 0.9%Q).
  split; [exact Hx | ].
  split; [reflexivity | ]. split; [reflexivity | ].
  split; [reflexivity | ]. split; [reflexivity | ].
  unfold within in Hw. apply andb_prop in Hw. exact Hw.
Qed.

(** The check of the table is needed: on [table_rounding_up], whose
    columns ascend, it fails, and the inversion of the double just below
    the last tabulated y is above the last tabulated x, and above the
    inversion of the last tabulated y itself. *)
Lemma rounding_can_leave_an_unchecked_table :
  let xs := map fst table_rounding_up in
  let ys := map snd table_rounding_up in
  table_checked table_rounding_up = false
  /\ ascending xs = true /\ ascending ys = true
  /\ exists x x',
       binary_search_interpolate (next_down (lit 0.93%Q)) xs ys = Ok x
       /\ binary_search_interpolate (lit 0.93%Q) xs ys = Ok x'
       /\ x' = lit 0.3%Q /\ (x' <? x) = true.
Proof.
  cbv zeta. split; [vm_compute; reflexivity | ].
  split; [reflexivity | ]. split; [reflexivity | ].
  do 2 eexists. split; [vm_compute; reflexivity | ].
  split; [vm_compute; reflexivity | ].
  split; vm_compute; reflexivity.
Qed.

End Claims_binary64.

(** ** The theorems at concrete inputs *)

Lemma C3_witness_default_table :
  equilibrium_data (default_config (A:=float)) <> []
  /\ ascending (y_eq (default_config (A:=float))) = true
  /\ binary_search_interpolate (A:=float) (lit 0.5)
       (x_eq default_config) (y_eq default_config)
     = Ok (lit 0.2 + (lit 0.5 - lit 0.39) * (lit 0.3 - lit 0.2)
                     / (lit 0.52 - lit 0.39))%num.
Proof.
  split; [discriminate | ]. split; [reflexivity | ].
  pose proof (@C3_equilibrium_inversion float _ _ default_config (lit 0.5)
                ltac:(discriminate) eq_refl) as H.
  cbv zeta in H. destruct H as [_ [_ [_ [H _]]]].
  exact (H 1%nat ltac:(simpl; lia) eq_refl eq_refl).
Defined.

Lemma C6_witness_feed_above_table :
  (forall p, In p (equilibrium_data (config_feed_above_table (A:=float))) ->
             ltb (xF config_feed_above_table) (snd p) = false)
  /\ script (A:=float) config_feed_above_table blank_globals = Err TypeError.
Proof.
  assert (H : forall p, In p (equilibrium_data (config_feed_above_table (A:=float))) ->
                        ltb (xF config_feed_above_table) (snd p) = false).
  { intros p Hin. simpl in Hin.
    repeat (destruct Hin as [<- | Hin]; [reflexivity | ]). contradiction. }
  split; [exact H | ].
  exact (proj2 (proj2 (proj2
    (@C6_lookup_fails_without_point float _ _ config_feed_above_table blank_globals H)))).
Defined.


Lemma C8_witness_both_feeds :
  feed_line (A:=Q) 0.4 1.0 = ([0.4; 0.4], [0; 1])%Q
  /\ length (fst (feed_line (A:=Q) 0.4 0.5)) = 100%nat.
Proof.
  split.
  - apply (proj1 (C8_feed_line 0.4 1.0)). reflexivity.
  - apply (proj2 (C8_feed_line 0.4 0.5)). intros H. discriminate H.
Defined.

(** * Further properties of the script *)

(** ** On every instance of [Num] *)

Section More_generic.

Context {A : Type} {NA : Num A}.
Local Open Scope num_scope.

Lemma find_Some_split {T : Type} (f : T -> bool) (l : list T) (p : T) :
  find f l = Some p <->
  exists pre post, l = pre ++ p :: post
    /\ (forall r, In r pre -> f r = false) /\ f p = true.
Proof.
  induction l as [ | a l IH]; simpl.
  - split; [discriminate | ].
    intros [pre [post [H _]]]. destruct pre; discriminate.
  - destruct (f a) eqn:Ea.
    + split.
      * intros H. inversion H; subst.
        exists [], l. simpl. repeat split; auto. intros r [].
      * intros [pre [post [H [Hpre Hp]]]].
        destruct pre as [ | b pre]; simpl in H; inversion H; subst; [reflexivity | ].
        rewrite (Hpre b (or_introl eq_refl)) in Ea. discriminate.
    + rewrite IH. split.
      * intros [pre [post [H [Hpre Hp]]]].
        exists (a :: pre), post. subst l. simpl. repeat split; auto.
        intros r [<- | Hin]; auto.
      * intros [pre [post [H [Hpre Hp]]]].
        destruct pre as [ | b pre]; simpl in H; inversion H; subst.
        -- congruence.
        -- exists pre, post. repeat split; auto.
           intros r Hin. apply Hpre. right. exact Hin.
Qed.

(** X1.  The lookup returns a row exactly when that row is the first of
    the table whose y is above xF: every row before it fails the test of
    line 55 and the row itself passes it. *)
Theorem find_intersection_first_row_above (c : config A) (p : A * A) :
  find_intersection (x_eq c) (y_eq c) (xF c) (xD c) = Ok (Some p) <->
  exists pre post,
    equilibrium_data c = pre ++ p :: post
    /\ (forall r, In r pre -> (snd r >? xF c) = false)
    /\ (snd p >? xF c) = true.
Proof.
  rewrite find_intersection_find. split.
  - intros H. injection H as H'. exact (proj1 (find_Some_split _ _ _) H').
  - intros H. f_equal. exact (proj2 (find_Some_split _ _ _) H).
Qed.

Lemma find_intersection_from_short (n i : nat) (xs ys : list A) (xf : A) :
  (i <= length ys < i + n)%nat ->
  (forall v, In v ys -> (v >? xf) = false) ->
  find_intersection_from n i xs ys xf = Err IndexError.
Proof.
  revert i. induction n as [ | n IH]; intros i Hlen Hnone; simpl; [lia | ].
  unfold index. destruct (nth_error ys i) as [yi | ] eqn:Ei; simpl.
  - rewrite (Hnone yi (nth_error_In _ _ Ei)).
    assert (i < length ys)%nat by (apply nth_error_Some; congruence).
    apply IH; [lia | exact Hnone].
  - reflexivity.
Qed.

(** X2.  Called with a y column shorter than the x column and no y above
    xF, the lookup runs past the end of the y column and raises
    IndexError instead of returning None. *)
Theorem find_intersection_short_y_column (xs ys : list A) (xf xd : A) :
  (length ys < length xs)%nat ->
  (forall v, In v ys -> (v >? xf) = false) ->
  find_intersection xs ys xf xd = Err IndexError.
Proof.
  intros Hlen Hnone. unfold find_intersection.
  apply find_intersection_from_short; [lia | exact Hnone].
Qed.

Lemma find_intersection_from_extra (n i : nat) (xs ys extra : list A) (xf : A) :
  (i + n <= length ys)%nat ->
  find_intersection_from n i xs (ys ++ extra) xf
  = find_intersection_from n i xs ys xf.
Proof.
  revert i. induction n as [ | n IH]; intros i Hlen; simpl; [reflexivity | ].
  unfold index. rewrite nth_error_app1 by lia.
  destruct (nth_error ys i) as [yi | ]; simpl; [ | reflexivity].
  destruct (yi >? xf); [reflexivity | ].
  apply IH. lia.
Qed.

(** X3.  The lookup reads the y column over the length of the x column
    only: y values past that length change nothing, even when they are
    above xF. *)
Theorem find_intersection_ignores_longer_y_column
  (xs ys extra : list A) (xf xd : A) :
  length xs = length ys ->
  find_intersection xs (ys ++ extra) xf xd = find_intersection xs ys xf xd.
Proof.
  intros Hlen. unfold find_intersection.
  apply find_intersection_from_extra. lia.
Qed.


(** X4.  With the two columns of one length and at least one row, the
    inversion returns a value for every target: none of its index
    expressions leaves the table, whatever the comparisons answer. *)
Theorem inversion_never_raises (c : config A) (y : A) :
  equilibrium_data c <> [] ->
  exists x, binary_search_interpolate y (x_eq c) (y_eq c) = Ok x.
Proof.
  intros Hne.
  apply binary_search_interpolate_returns;
    [apply x_eq_y_eq_length | apply y_eq_nonempty; exact Hne].
Qed.

(** *** The shape of the stage list *)

Lemma unsteps_staircase (l : lines A) (ss : list ((A * A) * (A * A))) (x : A) :
  Forall (step_ok l) ss -> chained x ss ->
  forall i p p',
    nth_error (unsteps ss) i = Some p ->
    nth_error (unsteps ss) (S i) = Some p' ->
    if Nat.even i then snd p' = snd p else fst p' = fst p.
Proof.
  revert x. induction ss as [ | s ss IH]; intros x Hok Hch i p p' Hp Hp'.
  - destruct i; discriminate.
  - change (unsteps (s :: ss)) with (fst s :: snd s :: unsteps ss) in *.
    inversion Hok as [ | s0 ss0 Hs Hrest]; subst.
    destruct Hch as [_ Hch].
    destruct i as [ | [ | i]].
    + simpl in *. inversion Hp; inversion Hp'; subst. apply Hs.
    + simpl in Hp, Hp'. inversion Hp; subst.
      destruct ss as [ | s' ss']; [discriminate | ].
      change (unsteps (s' :: ss')) with (fst s' :: snd s' :: unsteps ss') in Hp'.
      simpl in Hp'. inversion Hp'; subst.
      simpl. apply Hch.
    + change (Nat.even (S (S i))) with (Nat.even i).
      exact (IH _ Hrest Hch i p p' Hp Hp').
Qed.

(** X5.  The stage list of a finished run is a staircase: a point at an
    even position and the next one have the same y (the horizontal step to
    the equilibrium curve), a point at an odd position and the next one
    have the same x (the vertical step back to the operating line). *)
Theorem stages_form_a_staircase (c : config A) (g g' : globals A) :
  stage_design c g = Ok g' ->
  forall i p p',
    nth_error (stages (g_loop g')) i = Some p ->
    nth_error (stages (g_loop g')) (S i) = Some p' ->
    if Nat.even i then snd p' = snd p else fst p' = fst p.
Proof.
  intros H.
  apply stage_design_inv in H.
  destruct H as [g1 [ss [_ [_ [_ [_ [_ [Hst [Hok [Hch _]]]]]]]]]].
  rewrite Hst. exact (@unsteps_staircase _ ss (xD c) Hok Hch).
Qed.

Lemma filter_unsteps_length (f : A * A -> bool) (ss : list ((A * A) * (A * A))) :
  length (filter f (unsteps ss))
  = (length (filter (fun s => f (fst s)) ss)
     + length (filter (fun s => f (snd s)) ss))%nat.
Proof.
  induction ss as [ | s ss IH]; [reflexivity | ].
  change (unsteps (s :: ss)) with (fst s :: snd s :: unsteps ss).
  simpl. destruct (f (fst s)), (f (snd s)); simpl; rewrite IH; lia.
Qed.

(** X6.  The feed stage of line 180 is the number of iterations that
    start above xiF plus the number of iterations that arrive above xiF:
    each iteration can count twice, so the feed stage is at most twice the
    number of stages of line 179. *)
Theorem feed_stage_counts_both_points (c : config A) (g g' : globals A) :
  stage_design c g = Ok g' ->
  let ss := steps (stages (g_loop g')) in
  feed_stage g'
  = (length (filter (fun s => fst (fst s) >? g_xiF g') ss)
     + length (filter (fun s => fst (snd s) >? g_xiF g') ss))%nat
  /\ (Z.of_nat (feed_stage g') <= 2 * number_of_stages g')%Z.
Proof.
  intros H ss.
  apply stage_design_inv in H.
  destruct H as [g1 [ss' [_ [_ [_ [_ [_ [Hst [_ [_ [Hcnt _]]]]]]]]]]].
  assert (Hss : ss = ss') by (unfold ss; rewrite Hst; apply steps_unsteps).
  assert (Hfeed : feed_stage g'
                  = (length (filter (fun s => fst (fst s) >? g_xiF g') ss')
                     + length (filter (fun s => fst (snd s) >? g_xiF g') ss'))%nat).
  { unfold feed_stage. rewrite Hst.
    apply (filter_unsteps_length (fun p => fst p >? g_xiF g')). }
  split; [rewrite Hss; exact Hfeed | ].
  rewrite Hfeed. unfold number_of_stages.
  rewrite Hst, length_unsteps.
  pose proof (filter_length_le (fun s => fst (fst s) >? g_xiF g') ss').
  pose proof (filter_length_le (fun s => fst (snd s) >? g_xiF g') ss').
  replace (Z.of_nat (2 * length ss') / 2)%Z with (Z.of_nat (length ss')).
  - lia.
  - rewrite Nat2Z.inj_mul, Z.mul_comm. symmetry. apply Z.div_mul. lia.
Qed.

(** *** How the loop ends *)

Local Notation converged s :=
  (absv (fst (fst s) - fst (snd s)) <? tolerance).

Lemma stage_loop_exit (fuel : nat) (l : lines A) (st st' : loop_state A) :
  stage_loop fuel l st = Ok st' ->
  exists ss,
    stages st' = stages st ++ unsteps ss
    /\ Forall (fun s => (fst (fst s) >? xW (cfg l) + tolerance) = true) ss
    /\ ((ss = [] /\ st' = st /\ loop_cond l st = false)
        \/ exists ss0 s,
             ss = ss0 ++ [s]
             /\ Forall (fun s0 => converged s0 = false) ss0
             /\ ((converged s = true /\ current_x st' = fst (fst s))
                 \/ (converged s = false /\ current_x st' = fst (snd s)
                     /\ loop_cond l st' = false))).
Proof.
  revert st. induction fuel as [ | fuel IH]; intros st; simpl.
  - destruct (loop_cond l st) eqn:Hc; [discriminate | ].
    intros H; inversion H; subst; clear H.
    exists []. simpl. rewrite app_nil_r. split; [reflexivity | ].
    split; [constructor | left; auto].
  - destruct (loop_cond l st) eqn:Hc.
    + intros H. apply bind_Ok in H. destruct H as [[st1 broke] [Hbody H]].
      pose proof (stage_body_inv _ _ Hbody) as [nx [Hnx [Hst [Hn [Hbr Hx]]]]].
      pose proof Hc as Hc'. unfold loop_cond in Hc'.
      apply andb_prop in Hc'. destruct Hc' as [Habove _].
      set (s := ((current_x st, operating_y l (current_x st)),
                 (nx, operating_y l (current_x st)))).
      destruct broke.
      * inversion H; subst; clear H.
        exists [s]. split; [exact Hst | ].
        split; [constructor; [exact Habove | constructor] | ].
        right. exists [], s. split; [reflexivity | ].
        split; [constructor | ]. left. split; [symmetry; exact Hbr | exact Hx].
      * apply IH in H. destruct H as [ss [Hss [Hab Hend]]].
        exists (s :: ss). split.
        { rewrite Hss, Hst, <- app_assoc. reflexivity. }
        split; [constructor; [exact Habove | exact Hab] | ].
        right. destruct Hend as [[-> [-> Hc1]] | [ss0 [s' [-> [Hnc Hlast]]]]].
        -- exists [], s. split; [reflexivity | ].
           split; [constructor | ]. right.
           split; [symmetry; exact Hbr | ]. split; [exact Hx | exact Hc1].
        -- exists (s :: ss0), s'. split; [reflexivity | ].
           split; [constructor; [symmetry; exact Hbr | exact Hnc] | exact Hlast].
    + intros H; inversion H; subst; clear H.
      exists []. simpl. rewrite app_nil_r. split; [reflexivity | ].
      split; [constructor | left; auto].
Qed.

Lemma stage_design_exit (c : config A) (g g' : globals A) :
  stage_design c g = Ok g' ->
  let ss := steps (stages (g_loop g')) in
  let l := lines_of c g' in
  Forall (fun s => (fst (fst s) >? xW c + tolerance) = true) ss
  /\ chained (xD c) ss
  /\ Forall (step_ok l) ss
  /\ iteration_count (g_loop g') = Z.of_nat (length ss)
  /\ (iteration_count (g_loop g') <= max_iterations)%Z
  /\ ((ss = [] /\ (xD c >? xW c + tolerance) = false)
      \/ exists ss0 s,
           ss = ss0 ++ [s]
           /\ Forall (fun s0 => converged s0 = false) ss0
           /\ ((converged s = true /\ current_x (g_loop g') = fst (fst s))
               \/ (converged s = false /\ current_x (g_loop g') = fst (snd s)
                   /\ loop_cond l (g_loop g') = false))).
Proof.
  intros H ss l.
  pose proof (stage_design_inv _ _ H)
    as [g1 [ss1 [_ [_ [_ [_ [_ [Hst1 [Hok [Hch [Hcnt Hmax]]]]]]]]]]].
  assert (Hss1 : ss = ss1) by (unfold ss; rewrite Hst1; apply steps_unsteps).
  unfold stage_design in H. apply bind_Ok in H. destruct H as [g0 [_ H]].
  unfold run_loop in H. apply bind_Ok in H. destruct H as [st [Hloop H]].
  inversion H; subst g'; clear H.
  apply stage_loop_exit in Hloop. destruct Hloop as [ss2 [Hst2 [Hab Hend]]].
  simpl in Hst2.
  assert (Hss2 : ss = ss2) by (unfold ss; simpl; rewrite Hst2; apply steps_unsteps).
  simpl in *.
  split; [rewrite Hss2; exact Hab | ].
  split; [rewrite Hss1; exact Hch | ].
  split; [rewrite Hss1; exact Hok | ].
  split; [rewrite Hss1; exact Hcnt | ].
  split; [exact Hmax | ].
  rewrite Hss2.
  destruct Hend as [[-> [-> Hc]] | Hend].
  - left. split; [reflexivity | ].
    unfold loop_cond in Hc. simpl in Hc.
    apply andb_false_iff in Hc. destruct Hc as [Hc | Hc]; [exact Hc | ].
    discriminate.
  - right. exact Hend.
Qed.

(** X7.  A finished run left its loop for one of three reasons.  Either
    no iteration ran, because xD is not above xW + tolerance.  Or every
    iteration started above xW + tolerance, none before the last one
    converged, and the last one converged (the break of line 138), or
    arrived at an x that is not above xW + tolerance, or was the 1000th. *)
Theorem run_ends_for_one_of_three_reasons (c : config A) (g g' : globals A) :
  stage_design c g = Ok g' ->
  let ss := steps (stages (g_loop g')) in
  let above x := x >? xW c + tolerance in
  (ss = [] /\ above (xD c) = false)
  \/ exists ss0 s,
       ss = ss0 ++ [s]
       /\ Forall (fun s0 => above (fst (fst s0)) = true /\ converged s0 = false) ss0
       /\ above (fst (fst s)) = true
       /\ (converged s = true
           \/ above (fst (snd s)) = false
           \/ iteration_count (g_loop g') = max_iterations).
Proof.
  intros H ss above.
  destruct (stage_design_exit _ _ H) as [Hab [_ [_ [_ [Hmax Hend]]]]].
  fold ss in Hab, Hend.
  destruct Hend as [Hempty | [ss0 [s [Hss [Hnc Hlast]]]]]; [left; exact Hempty | ].
  right. exists ss0, s. split; [exact Hss | ].
  rewrite Hss in Hab. apply Forall_app in Hab. destruct Hab as [Hab0 Habs].
  inversion Habs as [ | s1 l1 Hs _]; subst.
  split.
  { apply Forall_forall. intros s0 Hin.
    rewrite Forall_forall in Hab0, Hnc. split; [apply Hab0 | apply Hnc]; exact Hin. }
  split; [exact Hs | ].
  destruct Hlast as [[Hc _] | [_ [Hx Hc]]]; [left; exact Hc | right].
  unfold loop_cond in Hc. apply andb_false_iff in Hc.
  destruct Hc as [Hc | Hc].
  - left. unfold above. rewrite <- Hx. exact Hc.
  - right. apply Z.ltb_ge in Hc. lia.
Qed.

(** X8.  A finished run records no stage exactly when xD is not above
    xW + tolerance; it then prints 0 stages, feed stage 0 and no
    warning. *)
Theorem no_stage_exactly_when_xD_at_bottoms (c : config A) (g g' : globals A) :
  stage_design c g = Ok g' ->
  (number_of_stages g' = 0%Z <-> (xD c >? xW c + tolerance) = false)
  /\ (number_of_stages g' = 0%Z ->
      stages (g_loop g') = [] /\ feed_stage g' = O /\ warning g' = false).
Proof.
  intros H.
  destruct (stage_design_exit _ _ H) as [Hab [Hch [_ [Hcnt [_ Hend]]]]].
  pose proof (stage_design_inv _ _ H)
    as [g1 [ss1 [_ [_ [_ [_ [_ [Hst1 _]]]]]]]].
  assert (Hss1 : ss1 = steps (stages (g_loop g')))
    by (rewrite Hst1; symmetry; apply steps_unsteps).
  subst ss1.
  remember (steps (stages (g_loop g'))) as ss eqn:Ess.
  assert (Hn : number_of_stages g' = Z.of_nat (length ss)).
  { unfold number_of_stages. rewrite Hst1, length_unsteps.
    rewrite Nat2Z.inj_mul, Z.mul_comm. apply Z.div_mul. lia. }
  assert (Hzero : number_of_stages g' = 0%Z -> ss = []).
  { rewrite Hn. intros E. destruct ss; [reflexivity | simpl in E; lia]. }
  split; [split | ].
  - intros E. apply Hzero in E.
    destruct Hend as [[_ Hx] | [ss0 [s [Hss _]]]]; [exact Hx | ].
    rewrite E in Hss. destruct ss0; discriminate.
  - intros Hx. destruct ss as [ | s ss']; [rewrite Hn; reflexivity | ].
    inversion Hab as [ | s0 l0 Hs _]; subst.
    destruct Hch as [Hfirst _]. rewrite Hfirst in Hs. congruence.
  - intros E. apply Hzero in E. subst ss.
    assert (Hst : stages (g_loop g') = []) by (rewrite Hst1, E; reflexivity).
    split; [exact Hst | ].
    split; [unfold feed_stage; rewrite Hst; reflexivity | ].
    unfold warning. rewrite Hcnt, E. reflexivity.
Qed.

(** *** The segments handed to the plot *)

Local Notation segment s :=
  ([fst (fst s); fst (snd s)], [snd (fst s); snd (snd s)]).

Lemma stage_segments_from_steps (k : nat) :
  forall pre rest : list (A * A),
    length (steps rest) = k ->
    stage_segments_from k (length pre) (pre ++ rest)
    = Ok (map (fun s => segment s) (steps rest)).
Proof.
  induction k as [ | k IH]; intros pre rest Hk.
  - destruct (steps rest); [reflexivity | discriminate].
  - destruct rest as [ | p1 [ | p2 rest']]; try discriminate.
    simpl in Hk. injection Hk as Hk.
    simpl stage_segments_from. unfold index.
    rewrite nth_error_app2, Nat.sub_diag by lia. simpl.
    rewrite nth_error_app2 by lia.
    replace (length pre + 1 - length pre)%nat with 1%nat by lia. simpl.
    specialize (IH (pre ++ [p1; p2]) rest' Hk).
    rewrite length_app in IH. simpl in IH.
    rewrite <- app_assoc in IH. simpl in IH.
    rewrite IH. reflexivity.
Qed.

Lemma length_steps (s : list (A * A)) :
  Z.of_nat (length (steps s)) = (Z.of_nat (length s) / 2)%Z.
Proof.
  assert (H : forall n (s0 : list (A * A)), (length s0 < n)%nat ->
            Z.of_nat (length (steps s0)) = (Z.of_nat (length s0) / 2)%Z).
  { induction n as [ | n IH]; intros s0 Hn; [lia | ].
    destruct s0 as [ | p1 [ | p2 s1]]; try reflexivity.
    change (steps (p1 :: p2 :: s1)) with ((p1, p2) :: steps s1).
    simpl length. rewrite Nat2Z.inj_succ, (IH s1) by (simpl in Hn; lia).
    replace (Z.of_nat (S (S (length s1)))) with (Z.of_nat (length s1) + 1 * 2)%Z by lia.
    rewrite Z.div_add by lia. lia. }
  apply (H (S (length s))). lia.
Qed.

(** X9.  The plot loop of lines 161-165 never indexes outside the stage
    list, whatever its length: it draws one segment for each pair of
    consecutive points, as many as line 179 prints stages.  After a
    finished run every segment is horizontal. *)
Theorem plot_draws_one_horizontal_per_stage :
  (forall s : list (A * A),
     stage_segments s = Ok (map (fun p => segment p) (steps s))
     /\ Z.of_nat (length (steps s)) = (Z.of_nat (length s) / 2)%Z)
  /\ (forall (c : config A) (g g' : globals A),
        stage_design c g = Ok g' ->
        exists segs,
          stage_segments (stages (g_loop g')) = Ok segs
          /\ Z.of_nat (length segs) = number_of_stages g'
          /\ Forall (fun seg => exists x x' y, seg = ([x; x'], [y; y])) segs).
Proof.
  assert (Hseg : forall s : list (A * A),
             stage_segments s = Ok (map (fun p => segment p) (steps s))).
  { intros s. unfold stage_segments.
    assert (Hr : range_length 0 (Z.of_nat (length s) - 1) 2 = length (steps s)).
    { unfold range_length. pose proof (length_steps s) as Hl.
      destruct (Z.ltb_spec 0 (Z.of_nat (length s) - 1)) as [Hlt | Hge].
      - replace (Z.of_nat (length s) - 1 - 0 + 2 - 1)%Z
          with (Z.of_nat (length s)) by lia.
        rewrite <- Hl. apply Nat2Z.id.
      - assert (Z.of_nat (length s) / 2 = 0)%Z by (apply Z.div_small; lia).
        lia. }
    rewrite Hr. exact (@stage_segments_from_steps (length (steps s)) [] s eq_refl). }
  split.
  - intros s. split; [apply Hseg | apply length_steps].
  - intros c g g' H.
    exists (map (fun p => segment p) (steps (stages (g_loop g')))).
    split; [apply Hseg | ].
    split; [rewrite length_map; apply length_steps | ].
    apply stage_design_inv in H.
    destruct H as [g1 [ss [_ [_ [_ [_ [_ [Hst [Hok _]]]]]]]]].
    rewrite Hst, steps_unsteps.
    apply Forall_map. apply Forall_forall. intros s Hin.
    rewrite Forall_forall in Hok. destruct (Hok s Hin) as [_ [Hy _]].
    exists (fst (fst s)), (fst (snd s)), (snd (fst s)). rewrite Hy. reflexivity.
Qed.

(** *** What a finished run leaves in the variables of lines 58-83 *)

Lemma assign_lines_fields (c : config A) (g g1 : globals A) :
  assign_lines c g = Ok g1 ->
  find (fun p => snd p >? xF c) (equilibrium_data c) = Some (g_xiE g1, g_yiE g1)
  /\ g_R_min g1 = R_min_of (xD c) (g_xiE g1) (g_yiE g1)
  /\ g_R g1 = operating_reflux c (g_R_min g1)
  /\ g_xiF g1 = xiF_of c (g_R g1)
  /\ g_yiF g1 = yiF_of c (g_R g1) (g_xiF g1).
Proof.
  unfold assign_lines. rewrite find_intersection_find. simpl.
  destruct (find _ _) as [[xi yi] | ]; simpl; [ | discriminate].
  intros H. inversion H; subst; clear H. simpl. auto.
Qed.

Lemma stage_design_fields (c : config A) (g g' : globals A) :
  stage_design c g = Ok g' ->
  find (fun p => snd p >? xF c) (equilibrium_data c) = Some (g_xiE g', g_yiE g')
  /\ g_R_min g' = R_min_of (xD c) (g_xiE g') (g_yiE g')
  /\ g_R g' = operating_reflux c (g_R_min g')
  /\ g_xiF g' = xiF_of c (g_R g')
  /\ g_yiF g' = yiF_of c (g_R g') (g_xiF g').
Proof.
  unfold stage_design. intros H.
  apply bind_Ok in H. destruct H as [g1 [H1 H]].
  apply assign_lines_fields in H1.
  unfold run_loop in H. apply bind_Ok in H. destruct H as [st [_ H]].
  inversion H; subst; clear H. simpl. exact H1.
Qed.

End More_generic.

(** ** The script as a whole *)

Section More_script.

Context {A : Type} {NA : Num A} {SA : Sqrt A}.
Local Open Scope num_scope.



End More_script.

(** ** On binary64 *)

Section More_float.

Lemma float_ltb_nan_r (x : float) : PrimFloat.ltb x PrimFloat.nan = false.
Proof.
  rewrite FloatAxioms.ltb_spec.
  change (Prim2SF PrimFloat.nan) with S754_nan.
  unfold SFltb, SFcompare. destruct (Prim2SF x); reflexivity.
Qed.

Lemma float_ltb_nan_l (x : float) : PrimFloat.ltb PrimFloat.nan x = false.
Proof.
  rewrite FloatAxioms.ltb_spec.
  change (Prim2SF PrimFloat.nan) with S754_nan.
  reflexivity.
Qed.

(** X18.  A NaN target fails both comparisons of lines 95 and 97 at the
    first pass, so the inversion reports an exact match and returns the x
    of the middle row, [x_eq[(len(y_eq) - 1) // 2]], whatever the table
    holds. *)
Theorem nan_target_returns_middle_row (xs ys : list float) :
  length xs = length ys -> ys <> [] ->
  binary_search_interpolate PrimFloat.nan xs ys
  = Ok (nth ((length ys - 1) / 2) xs (lit 0)).
Proof.
  intros Hlen Hne. apply inversion_of_incomparable; try assumption.
  intros v _. split; [apply float_ltb_nan_r | apply float_ltb_nan_l].
Qed.

(** X19.  A NaN liquid composition ends the stage loop at once: the test
    of line 118 fails, no point is recorded and no error is raised. *)
Theorem nan_current_x_stops_the_loop
  (fuel : nat) (l : lines float) (st : loop_state float) :
  current_x st = PrimFloat.nan -> stage_loop fuel l st = Ok st.
Proof.
  intros Hnan.
  assert (Hc : loop_cond l st = false).
  { unfold loop_cond. rewrite Hnan. simpl.
    rewrite float_ltb_nan_r. reflexivity. }
  destruct fuel; simpl; rewrite Hc; reflexivity.
Qed.

Local Open Scope float_scope.
Local Notation d0 := (@lit float float_Num 0%Q).

(** X15.  On binary64 the inversion rises with the target between two
    neighbouring rows: for two targets strictly between the y of the same
    two rows, the larger one never gives a smaller x, and neither gives
    an x below the x of the lower row, provided [chain_ok] holds of the
    two rows.  (Across a tabulated y this can fail by rounding:
    [rounding_can_leave_an_unchecked_table].) *)
Theorem inversion_rises_between_rows (c : config float) (i : nat) (y y' : float) :
  ascending (y_eq c) = true ->
  (S i < length (equilibrium_data c))%nat ->
  let x1 := nth i (x_eq c) d0 in
  let y1 := nth i (y_eq c) d0 in
  let x2 := nth (S i) (x_eq c) d0 in
  let y2 := nth (S i) (y_eq c) d0 in
  chain_ok x1 y1 x2 y2 = true ->
  (y1 <? y) = true -> (y <=? y') = true -> (y' <? y2) = true ->
  exists x x',
    binary_search_interpolate y (x_eq c) (y_eq c) = Ok x
    /\ binary_search_interpolate y' (x_eq c) (y_eq c) = Ok x'
    /\ (x1 <=? x) = true /\ (x <=? x') = true.
Proof.
  intros Hasc Hi x1 y1 x2 y2 Hchain H1 H2 H3.
  pose proof (x_eq_y_eq_length c) as Hlen.
  assert (Hly : length (y_eq c) = length (equilibrium_data c))
    by (unfold y_eq; apply length_map).
  pose proof (@inversion_between float float_Num float_NumOrder
                (x_eq c) (y_eq c)) as Hbet.
  assert (H1' : (y1 <? y') = true) by exact (@float_ltb_leb_trans _ _ _ H1 H2).
  assert (H2' : (y <? y2) = true) by exact (@float_leb_ltb_trans _ _ _ H2 H3).
  exists (interpolate y x1 y1 x2 y2), (interpolate y' x1 y1 x2 y2).
  split; [apply (Hbet y Hlen Hasc i); [lia | exact H1 | exact H2'] | ].
  split; [apply (Hbet y' Hlen Hasc i); [lia | exact H1' | exact H3] | ].
  exact (@interpolate_rises y y' x1 y1 x2 y2 Hchain H1 H2 (@float_ltb_leb _ _ H3)).
Qed.

Local Notation converged s :=
  (PrimFloat.ltb (abs (fst (fst s) - fst (snd s))) tolerance).

(** X16.  On binary64, on a table that passes [table_checked] and whose
    first x is above xW + tolerance, a run that starts above
    xW + tolerance never steps down to the bottoms composition: every x
    it arrives at lies within the table, the last current_x is still
    above xW + tolerance, and the loop ended by the convergence test of
    line 137 or at the 1000th iteration. *)
Theorem stepper_stays_above_bottoms_below_table
  (c : config float) (g g' : globals float) :
  stage_design c g = Ok g' ->
  table_checked (equilibrium_data c) = true ->
  (xW c + tolerance <? nth 0 (x_eq c) d0) = true ->
  (xW c + tolerance <? xD c) = true ->
  let ss := steps (stages (g_loop g')) in
  Forall (fun s => within (nth 0 (x_eq c) d0)
                     (nth (length (x_eq c) - 1) (x_eq c) d0) (fst (snd s)) = true) ss
  /\ (xW c + tolerance <? current_x (g_loop g')) = true
  /\ exists ss0 s,
       ss = ss0 ++ [s]
       /\ (converged s = true
           \/ iteration_count (g_loop g') = max_iterations).
Proof.
  intros H Hok Hfirst Hstart ss.
  destruct (stage_design_fields _ _ H) as [Hfind _].
  assert (Hne : equilibrium_data c <> []).
  { intros E. rewrite E in Hfind. discriminate. }
  destruct (stage_design_exit _ _ H) as [Hab [_ [Hstep [_ [Hmax Hend]]]]].
  fold ss in Hab, Hstep, Hend.
  assert (Hrange : Forall (fun s => within (nth 0 (x_eq c) d0)
                     (nth (length (x_eq c) - 1) (x_eq c) d0) (fst (snd s)) = true) ss).
  { apply Forall_forall. intros s Hin.
    rewrite Forall_forall in Hstep. destruct (Hstep s Hin) as [_ [_ Hinv]].
    simpl in Hinv.
    destruct (@checked_table_inversion c (snd (fst s)) Hne Hok) as [x [Hx Hw]].
    rewrite Hx in Hinv. inversion Hinv; subst. exact Hw. }
  split; [exact Hrange | ].
  destruct Hend as [[_ Hx] | [ss0 [s [Hss [_ Hlast]]]]].
  - exfalso. simpl in Hx. simpl in Hstart. congruence.
  - assert (Hin : In s ss) by (rewrite Hss; apply in_or_app; right; left; reflexivity).
    rewrite Forall_forall in Hab, Hrange.
    pose proof (Hab s Hin) as Habove. simpl in Habove.
    pose proof (Hrange s Hin) as Hw. unfold within in Hw.
    apply andb_prop in Hw. destruct Hw as [Hlo _].
    pose proof (@float_ltb_leb_trans _ _ _ Hfirst Hlo) as Harr.
    destruct Hlast as [[Hc Hcur] | [_ [Hcur Hc]]].
    + split; [rewrite Hcur; exact Habove | ].
      exists ss0, s. split; [exact Hss | ]. left. exact Hc.
    + split; [rewrite Hcur; exact Harr | ].
      exists ss0, s. split; [exact Hss | ]. right.
      unfold loop_cond in Hc. apply andb_false_iff in Hc.
      destruct Hc as [Hc | Hc].
      * rewrite Hcur in Hc. simpl in Hc. simpl in Harr. congruence.
      * apply Z.ltb_ge in Hc. lia.
Qed.

End More_float.

(** ** The further properties at concrete inputs *)

Lemma find_intersection_short_y_column_witness :
  (length [lit (A:=float) 0.22] < length [lit (A:=float) 0.1; lit 0.2])%nat
  /\ (forall v, In v [lit (A:=float) 0.22] -> ltb (lit 0.4) v = false)
  /\ find_intersection [lit (A:=float) 0.1; lit 0.2] [lit 0.22] (lit 0.4) (lit 0.98)
     = Err IndexError.
Proof.
  assert (H : forall v, In v [lit (A:=float) 0.22] -> ltb (lit 0.4) v = false).
  { intros v [<- | []]. reflexivity. }
  split; [simpl; lia | ]. split; [exact H | ].
  apply find_intersection_short_y_column; [simpl; lia | exact H].
Defined.

Lemma find_intersection_ignores_longer_y_column_witness :
  length [lit (A:=float) 0.1] = length [lit (A:=float) 0.22]
  /\ find_intersection [lit (A:=float) 0.1] ([lit 0.22] ++ [lit 0.96]) (lit 0.4) (lit 0.98)
     = Ok None.
Proof.
  split; [reflexivity | ].
  rewrite (@find_intersection_ignores_longer_y_column float _
             [lit 0.1] [lit 0.22] [lit 0.96] (lit 0.4) (lit 0.98) eq_refl).
  reflexivity.
Defined.

Lemma inversion_never_raises_witness :
  equilibrium_data (default_config (A:=float)) <> []
  /\ exists x, binary_search_interpolate (A:=float) PrimFloat.infinity
                 (x_eq default_config) (y_eq default_config) = Ok x.
Proof.
  split; [discriminate | ].
  apply inversion_never_raises. discriminate.
Defined.

Lemma stages_form_a_staircase_witness :
  exists g' : globals float,
    stage_design default_config blank_globals = Ok g'
    /\ forall i p p',
         nth_error (stages (g_loop g')) i = Some p ->
         nth_error (stages (g_loop g')) (S i) = Some p' ->
         if Nat.even i then snd p' = snd p else fst p' = fst p.
Proof.
  eexists. split; [vm_compute; reflexivity | ].
  apply (@stages_form_a_staircase float _ default_config blank_globals).
  vm_compute. reflexivity.
Defined.

Lemma feed_stage_counts_both_points_witness :
  exists g' : globals float,
    stage_design default_config blank_globals = Ok g'
    /\ (Z.of_nat (feed_stage g') <= 2 * number_of_stages g')%Z.
Proof.
  eexists. split; [vm_compute; reflexivity | ].
  refine (proj2 (@feed_stage_counts_both_points float _ default_config blank_globals _ _)).
  vm_compute. reflexivity.
Defined.

Lemma run_ends_for_one_of_three_reasons_witness :
  exists g' : globals float,
    stage_design default_config blank_globals = Ok g'
    /\ ((steps (stages (g_loop g')) = []
         /\ ltb (add (xW default_config) tolerance) (xD default_config) = false)
        \/ exists ss0 s,
             steps (stages (g_loop g')) = ss0 ++ [s]
             /\ Forall (fun s0 =>
                  ltb (add (xW default_config) tolerance) (fst (fst s0)) = true
                  /\ ltb (absv (sub (fst (fst s0)) (fst (snd s0)))) tolerance = false) ss0
             /\ ltb (add (xW default_config) tolerance) (fst (fst s)) = true
             /\ (ltb (absv (sub (fst (fst s)) (fst (snd s)))) tolerance = true
                 \/ ltb (add (xW default_config) tolerance) (fst (snd s)) = false
                 \/ iteration_count (g_loop g') = max_iterations)).
Proof.
  eexists. split; [vm_compute; reflexivity | ].
  apply (@run_ends_for_one_of_three_reasons float _ default_config blank_globals).
  vm_compute. reflexivity.
Defined.

Lemma no_stage_exactly_when_xD_at_bottoms_witness :
  exists g' : globals float,
    stage_design config_distillate_at_bottoms blank_globals = Ok g'
    /\ number_of_stages g' = 0%Z
    /\ stages (g_loop g') = [] /\ feed_stage g' = O /\ warning g' = false.
Proof.
  eexists. split; [vm_compute; reflexivity | ].
  match goal with
  | |- number_of_stages ?g = _ /\ _ =>
      assert (Hrun : stage_design config_distillate_at_bottoms blank_globals = Ok g)
        by (vm_compute; reflexivity);
      pose proof (@no_stage_exactly_when_xD_at_bottoms float _
                    config_distillate_at_bottoms blank_globals g Hrun) as H
  end.
  destruct H as [[_ Hz] Hrest].
  assert (Hzero := Hz ltac:(vm_compute; reflexivity)).
  split; [exact Hzero | exact (Hrest Hzero)].
Defined.

Lemma plot_draws_one_horizontal_per_stage_witness :
  exists g' : globals float,
    stage_design default_config blank_globals = Ok g'
    /\ exists segs,
         stage_segments (stages (g_loop g')) = Ok segs
         /\ Z.of_nat (length segs) = number_of_stages g'
         /\ Forall (fun seg => exists x x' y, seg = ([x; x'], [y; y])) segs.
Proof.
  eexists. split; [vm_compute; reflexivity | ].
  apply (proj2 (@plot_draws_one_horizontal_per_stage float _)
               default_config blank_globals).
  vm_compute. reflexivity.
Defined.

Lemma inversion_rises_between_rows_witness :
  let c := default_config (A:=float) in
  ascending (y_eq c) = true
  /\ (3 < length (equilibrium_data c))%nat
  /\ chain_ok (lit 0.3) (lit 0.52) (lit 0.4) (lit 0.63) = true
  /\ PrimFloat.ltb (lit 0.52) (lit 0.55) = true
  /\ PrimFloat.leb (lit 0.55) (lit 0.6) = true
  /\ PrimFloat.ltb (lit 0.6) (lit 0.63) = true
  /\ exists x x' : float,
       binary_search_interpolate (lit 0.55) (x_eq c) (y_eq c) = Ok x
       /\ binary_search_interpolate (lit 0.6) (x_eq c) (y_eq c) = Ok x'
       /\ PrimFloat.leb (lit 0.3) x = true /\ PrimFloat.leb x x' = true.
Proof.
  cbv zeta.
  split; [reflexivity | ]. split; [simpl; lia | ]. split; [reflexivity | ].
  split; [reflexivity | ]. split; [reflexivity | ]. split; [reflexivity | ].
  exact (@inversion_rises_between_rows default_config 2 (lit 0.55) (lit 0.6)
           eq_refl ltac:(simpl; lia) eq_refl eq_refl eq_refl eq_refl).
Defined.

Lemma stepper_stays_above_bottoms_below_table_witness :
  exists g' : globals float,
    stage_design default_config blank_globals = Ok g'
    /\ table_checked (equilibrium_data default_config) = true
    /\ PrimFloat.ltb (PrimFloat.add (xW default_config) tolerance)
                     (nth 0 (x_eq default_config) (lit 0)) = true
    /\ PrimFloat.ltb (PrimFloat.add (xW default_config) tolerance)
                     (xD default_config) = true
    /\ PrimFloat.ltb (PrimFloat.add (xW default_config) tolerance)
                     (current_x (g_loop g')) = true.
Proof.
  eexists. split; [vm_compute; reflexivity | ].
  match goal with
  | |- _ /\ _ /\ _ /\ PrimFloat.ltb _ (current_x (g_loop ?g)) = true =>
      assert (Hrun : stage_design default_config blank_globals = Ok g)
        by (vm_compute; reflexivity)
  end.
  assert (Htab : table_checked (equilibrium_data default_config) = true)
    by (vm_compute; reflexivity).
  split; [exact Htab | ].
  split; [reflexivity | ]. split; [reflexivity | ].
  exact (proj1 (proj2 (@stepper_stays_above_bottoms_below_table
                         default_config blank_globals _ Hrun Htab
                         eq_refl eq_refl))).
Defined.

Lemma nan_target_returns_middle_row_witness :
  length (x_eq (default_config (A:=float))) = length (y_eq (default_config (A:=float)))
  /\ y_eq (default_config (A:=float)) <> []
  /\ binary_search_interpolate PrimFloat.nan
       (x_eq (default_config (A:=float))) (y_eq default_config)
     = Ok (lit 0.5).
Proof.
  split; [reflexivity | ]. split; [discriminate | ].
  exact (@nan_target_returns_middle_row
           (x_eq default_config) (y_eq default_config) eq_refl ltac:(discriminate)).
Defined.

Lemma nan_current_x_stops_the_loop_witness :
  let l : lines float :=
    {| cfg := default_config; R := lit 3; xiF := lit 0.4; yiF := lit 0.54 |} in
  let st : loop_state float :=
    {| stages := []; current_x := PrimFloat.nan; iteration_count := 0 |} in
  current_x st = PrimFloat.nan /\ stage_loop 1000 l st = Ok st.
Proof.
  intros l st. split; [reflexivity | ].
  apply nan_current_x_stops_the_loop. reflexivity.
Defined.
